(** * Electrical charges: drag-and-drop sprites over a 2D engine

    A shallow embedding of [main.go] (the electrical-charges demo): the
    sprite and stroke records, the picking and dragging logic of the
    per-frame callback, and the one-line physics formulas, followed by
    the properties the specification states about them.

    Conventions of the embedding.
    - Go's [int] is the 64-bit two's-complement integer: a [Z] in
      [min_int .. max_int], every arithmetic result passed through [wrap].
    - Go's [float64] is Rocq's primitive binary64 [float].
    - [*Sprite] is an address into the store [heap] of a [Game]; the nil
      pointer is [None].  [*Stroke] is a key of the [strokes] map, which
      holds the stroke objects of the set [map[*Stroke]struct{}].
    - A run-time panic (failed type assertion, slice bound out of range,
      [rand.Intn] on a non-positive bound) is the result [None]. *)

From Stdlib Require Import ZArith Lia List String Floats DecimalString.
From stdpp Require Import base option list gmap strings.

Local Open Scope Z_scope.

(** ** Machine integers *)

Definition min_int : Z := - 2 ^ 63.
Definition max_int : Z := 2 ^ 63 - 1.

(** Reduction of a mathematical integer to the 64-bit signed range. *)
Definition wrap (z : Z) : Z := (z + 2 ^ 63) mod 2 ^ 64 - 2 ^ 63.

Definition is_int (z : Z) : Prop := min_int <= z <= max_int.

Definition int_add (a b : Z) : Z := wrap (a + b).
Definition int_sub (a b : Z) : Z := wrap (a - b).

(** Go's [/] on integers truncates toward zero. *)
Definition int_div (a b : Z) : Z := wrap (Z.quot a b).

(** The conversion [float64(n)] of an integer: round to nearest, ties to even. *)
Definition float64_of_int (z : Z) : float :=
  SF2Prim (binary_normalize prec emax z 0 false).

(** [strconv.Itoa]. *)
Definition Itoa (z : Z) : string := NilZero.string_of_int (Z.to_int z).

(** ** Constants of [main.go] *)

(** [k = 0.000000009], as the nearest binary64 value. *)
Definition k : float := 0x1.353cd652bb167p-27%float.

(** The literal [0.1] of the charge handlers, as the nearest binary64 value. *)
Definition charge_step : float := 0x1.999999999999ap-4%float.

Definition fullScreenWidth : Z := 800.
Definition fullScreenHeight : Z := 600.
Definition screenWidth : Z := fullScreenWidth.
(** [fullScreenHeight * .9] is an exact untyped constant, 540. *)
Definition screenHeight : Z := fullScreenHeight * 9 / 10.

(** ** The engine's images *)

(** [color.RGBA]: four 8-bit channels. *)
Record RGBA := mkRGBA { R : Z; G : Z; B : Z; A : Z }.

(** What the program uses of an [*ebiten.Image]: its size, a pair of
    non-negative [int]s, and the colour [At] a point. *)
Record Image := mkImage {
  img_w : Z;
  img_h : Z;
  At : Z -> Z -> RGBA;
  img_w_int : Is_true ((0 <=? img_w) && (img_w <=? max_int));
  img_h_int : Is_true ((0 <=? img_h) && (img_h <=? max_int))
}.

Definition Size (i : Image) : Z * Z := (img_w i, img_h i).

(** ** Sprite *)

Record Sprite := mkSprite {
  name : string;
  image : Image;
  x : Z;
  y : Z;
  charge : float;
  chosen : bool
}.

Definition set_x (v : Z) (s : Sprite) : Sprite :=
  mkSprite (name s) (image s) v (y s) (charge s) (chosen s).
Definition set_y (v : Z) (s : Sprite) : Sprite :=
  mkSprite (name s) (image s) (x s) v (charge s) (chosen s).
Definition set_charge (v : float) (s : Sprite) : Sprite :=
  mkSprite (name s) (image s) (x s) (y s) v (chosen s).
Definition set_chosen (v : bool) (s : Sprite) : Sprite :=
  mkSprite (name s) (image s) (x s) (y s) (charge s) v.
Definition set_image (v : Image) (s : Sprite) : Sprite :=
  mkSprite (name s) v (x s) (y s) (charge s) (chosen s).

(** ** Physics overlay *)

Section Physics.

(** [math.Atan2], a function of the Go library. *)
Variable math_Atan2 : float -> float -> float.

Definition distance (particle1 particle2 : Sprite) : float :=
  let deltaX := float64_of_int (int_sub (x particle1) (x particle2)) in
  let deltaY := float64_of_int (int_sub (y particle1) (y particle2)) in
  (sqrt (deltaX * deltaX + deltaY * deltaY) / 100)%float.

Definition force (particle1 particle2 : Sprite) : float :=
  let d := distance particle1 particle2 in
  (k * (charge particle1 * charge particle2) / (d * d))%float.

Definition field (charge radius : float) : float :=
  (k * charge / (radius * radius))%float.

Definition angle (particle1 particle2 : Sprite) : float :=
  math_Atan2 (float64_of_int (int_sub (y particle1) (y particle2)))
             (float64_of_int (int_sub (x particle1) (x particle2))).

Definition midPoint (particle1 particle2 : Sprite) : Z * Z :=
  (int_div (int_add (x particle1) (x particle2)) 2,
   int_div (int_add (y particle1) (y particle2)) 2).

End Physics.

(** ** Sprite methods *)

(** [In]: the alpha channel at the point, relative to the sprite, is positive. *)
Definition Sprite_In (s : Sprite) (px py : Z) : bool :=
  0 <? A (At (image s) (int_sub px (x s)) (int_sub py (y s))).

(** [MoveBy]: add the displacement, then clamp the four sides in the
    order of the source. *)
Definition Sprite_MoveBy (dx dy : Z) (s : Sprite) : Sprite :=
  let '(w, h) := Size (image s) in
  let s := set_x (int_add (x s) dx) s in
  let s := set_y (int_add (y s) dy) s in
  let s := if x s <? 0 then set_x 0 s else s in
  let s := if int_sub screenWidth w <? x s then set_x (int_sub screenWidth w) s else s in
  let s := if y s <? 0 then set_y 0 s else s in
  let s := if int_sub screenHeight h <? y s then set_y (int_sub screenHeight h) s else s in
  s.

(** ** Input devices and the engine *)

Inductive StrokeSource :=
  | MouseStrokeSource
  | TouchStrokeSource (ID : Z).

Inductive Key := KeyA | KeyP | KeyN | KeyUp | KeyDown | KeyRight | KeyLeft.

(** Pointers are addresses. *)
Abbreviation SpritePtr := nat (only parsing).
Abbreviation StrokePtr := nat (only parsing).

(** What the engine and the run time answer during one frame.  [rand1]
    and [rand2] are the raw values behind the two [rand.Intn] calls of
    the frame; [range_order] is the order in which a [range] statement
    enumerates the keys of a map, which Go leaves unspecified. *)
Record Engine := mkEngine {
  CursorPosition : Z * Z;
  TouchPosition : Z -> Z * Z;
  IsMouseButtonJustPressed : bool;
  IsMouseButtonJustReleased : bool;
  JustPressedTouchIDs : list Z;
  IsTouchJustReleased : Z -> bool;
  IsKeyJustPressed : Key -> bool;
  IsDrawingSkipped : bool;
  rand1 : Z;
  rand2 : Z;
  range_order : list StrokePtr -> list StrokePtr
}.

(** [rand.Intn n]: some value of [[0, n)]; panics when [n <= 0]. *)
Definition rand_Intn (raw n : Z) : option Z :=
  if n <=? 0 then None else Some (raw mod n).

Definition source_Position (e : Engine) (src : StrokeSource) : Z * Z :=
  match src with
  | MouseStrokeSource => CursorPosition e
  | TouchStrokeSource id => TouchPosition e id
  end.

Definition source_IsJustReleased (e : Engine) (src : StrokeSource) : bool :=
  match src with
  | MouseStrokeSource => IsMouseButtonJustReleased e
  | TouchStrokeSource id => IsTouchJustReleased e id
  end.

(** ** Stroke *)

(** The [interface{}] value of [draggingObject]: the nil interface, or
    a [*Sprite] (itself possibly the nil pointer). *)
Inductive iface :=
  | nil_iface
  | SpriteRef (p : option SpritePtr).

Record Stroke := mkStroke {
  source : StrokeSource;
  initX : Z;
  initY : Z;
  currentX : Z;
  currentY : Z;
  released : bool;
  draggingObject : iface
}.

Definition NewStroke (e : Engine) (src : StrokeSource) : Stroke :=
  let '(cx, cy) := source_Position e src in
  mkStroke src cx cy cx cy false nil_iface.

Definition Stroke_Update (e : Engine) (s : Stroke) : Stroke :=
  if released s then s
  else if source_IsJustReleased e (source s) then
    mkStroke (source s) (initX s) (initY s) (currentX s) (currentY s) true (draggingObject s)
  else
    let '(px, py) := source_Position e (source s) in
    mkStroke (source s) (initX s) (initY s) px py (released s) (draggingObject s).

Definition Stroke_IsReleased (s : Stroke) : bool := released s.

Definition Stroke_Position (s : Stroke) : Z * Z := (currentX s, currentY s).

Definition Stroke_PositionDiff (s : Stroke) : Z * Z :=
  let dx := int_sub (currentX s) (initX s) in
  let dy := int_sub (currentY s) (initY s) in
  (dx, dy).

Definition Stroke_DraggingObject (s : Stroke) : iface := draggingObject s.

Definition Stroke_SetDraggingObject (object : iface) (s : Stroke) : Stroke :=
  mkStroke (source s) (initX s) (initY s) (currentX s) (currentY s) (released s) object.

(** ** Game *)

(** [heap] holds the sprite objects, addressed by position; [sprites]
    is the slice of pointers, ordered from back to front.  The [Font]
    field only serves rendering and is left out. *)
Record Game := mkGame {
  heap : list Sprite;
  strokes : gmap StrokePtr Stroke;
  sprites : list SpritePtr;
  ChosenSprite : option SpritePtr
}.

Definition set_heap (h : list Sprite) (g : Game) : Game :=
  mkGame h (strokes g) (sprites g) (ChosenSprite g).
Definition set_strokes (m : gmap StrokePtr Stroke) (g : Game) : Game :=
  mkGame (heap g) m (sprites g) (ChosenSprite g).
Definition set_sprites (l : list SpritePtr) (g : Game) : Game :=
  mkGame (heap g) (strokes g) l (ChosenSprite g).

(** [for _, s := range sprites { s = f(s) }]: the body runs on the
    object behind each pointer of the slice, in order. *)
Definition range_sprites (f : Sprite -> Sprite) (l : list SpritePtr)
    (h : list Sprite) : list Sprite :=
  foldl (fun h p => alter f p h) h l.

(** A loop body guarded by [if s.chosen]. *)
Definition when_chosen (f : Sprite -> Sprite) (s : Sprite) : Sprite :=
  if chosen s then f s else s.

(** [s.In(x, y)] through a pointer. *)
Definition In_at (h : list Sprite) (p : SpritePtr) (px py : Z) : bool :=
  match h !! p with
  | Some s => Sprite_In s px py
  | None => false
  end.

(** The loop of [spriteAt], about to examine index [i - 1]. *)
Fixpoint spriteAt_from (h : list Sprite) (l : list SpritePtr) (i : nat)
    (px py : Z) : option SpritePtr :=
  match i with
  | O => None
  | S j =>
      match l !! j with
      | Some s => if In_at h s px py then Some s else spriteAt_from h l j px py
      | None => None
      end
  end.

Definition Game_spriteAt (g : Game) (px py : Z) : option SpritePtr :=
  spriteAt_from (heap g) (sprites g) (length (sprites g)) px py.

(** The search loop of [updateStroke]: the first index holding [s]. *)
Fixpoint index_of (s : SpritePtr) (l : list SpritePtr) : option nat :=
  match l with
  | [] => None
  | ss :: l' => if decide (ss = s) then Some O else S <$> index_of s l'
  end.

(** The type assertion to a sprite pointer: panics on the nil interface. *)
Definition as_Sprite (i : iface) : option (option SpritePtr) :=
  match i with
  | nil_iface => None
  | SpriteRef p => Some p
  end.

Definition Game_updateStroke (e : Engine) (stroke : StrokePtr) (g : Game)
    : option Game :=
  st ← strokes g !! stroke;
  let st := Stroke_Update e st in
  let g := set_strokes (<[stroke := st]> (strokes g)) g in
  if negb (Stroke_IsReleased st) then Some g
  else
    s ← as_Sprite (Stroke_DraggingObject st);
    match s with
    | None => Some g
    | Some s =>
        let '(dx, dy) := Stroke_PositionDiff st in
        let g := set_heap (alter (Sprite_MoveBy dx dy) s (heap g)) g in
        index ← index_of s (sprites g);
        let l := take index (sprites g) ++ drop (S index) (sprites g) in
        let g := set_sprites (l ++ [s]) g in
        Some (set_strokes
                (<[stroke := Stroke_SetDraggingObject nil_iface st]> (strokes g)) g)
    end.

(** The keys of the stroke set, in the order a [range] statement of this
    frame visits them. *)
Definition range_strokes (e : Engine) (g : Game) : list StrokePtr :=
  range_order e (map_to_list (strokes g)).*1.

(** The run time enumerates every key exactly once, in some order. *)
Definition fair_order (e : Engine) : Prop :=
  forall l : list StrokePtr, range_order e l ≡ₚ l.

(** The body of the loop over the strokes in [update], run on the keys
    [ord] still to visit. *)
Fixpoint strokes_loop (e : Engine) (ord : list StrokePtr) (g : Game)
    : option Game :=
  match ord with
  | [] => Some g
  | s :: ord' =>
      g ← Game_updateStroke e s g;
      st ← strokes g !! s;
      let g := if Stroke_IsReleased st
               then set_strokes (delete s (strokes g)) g else g in
      strokes_loop e ord' g
  end.

(** The handler of a pointer-down event, the same for the mouse and for
    each touch. *)
Definition press (e : Engine) (src : StrokeSource) (g : Game) : Game :=
  let s := NewStroke e src in
  let '(px, py) := Stroke_Position s in
  let spriteAtPos := Game_spriteAt g px py in
  let s := Stroke_SetDraggingObject (SpriteRef spriteAtPos) s in
  let g := set_strokes (<[fresh (dom (strokes g)) := s]> (strokes g)) g in
  let g := set_heap (range_sprites (set_chosen false) (sprites g) (heap g)) g in
  let g := match spriteAtPos with
           | Some p => set_heap (alter (set_chosen true) p (heap g)) g
           | None => g
           end in
  mkGame (heap g) (strokes g) (sprites g) spriteAtPos.

(** The handlers of the charge keys. *)
Definition charge_up (g : Game) : Game :=
  set_heap (range_sprites
              (when_chosen (fun s => set_charge (charge s + charge_step)%float s))
              (sprites g) (heap g)) g.

Definition charge_down (g : Game) : Game :=
  set_heap (range_sprites
              (when_chosen (fun s => set_charge (charge s - charge_step)%float s))
              (sprites g) (heap g)) g.

(** The handlers of the arrow keys; [screenHeight / 10] and
    [screenWidth / 10] are constants. *)
Definition nudge_up (g : Game) : Game :=
  set_heap (range_sprites
              (when_chosen (fun s => set_y (int_sub (y s) (screenHeight / 10)) s))
              (sprites g) (heap g)) g.

Definition nudge_down (g : Game) : Game :=
  set_heap (range_sprites
              (when_chosen (fun s => set_y (int_add (y s) (screenHeight / 10)) s))
              (sprites g) (heap g)) g.

Definition nudge_right (g : Game) : Game :=
  set_heap (range_sprites
              (when_chosen (fun s => set_x (int_add (x s) (screenWidth / 10)) s))
              (sprites g) (heap g)) g.

Definition nudge_left (g : Game) : Game :=
  set_heap (range_sprites
              (when_chosen (fun s => set_x (int_sub (x s) (screenWidth / 10)) s))
              (sprites g) (heap g)) g.

Definition on_key (e : Engine) (key : Key) (f : Game -> Game) (g : Game) : Game :=
  if IsKeyJustPressed e key then f g else g.

(** The set [draggingSprites] of the drawing phase; the type assertion
    on each stroke's object may panic. *)
Fixpoint dragging_sprites (l : list Stroke) : option (gset SpritePtr) :=
  match l with
  | [] => Some ∅
  | s :: l' =>
      sprite ← as_Sprite (Stroke_DraggingObject s);
      d ← dragging_sprites l';
      Some (match sprite with Some p => {[p]} ∪ d | None => d end)
  end.

Section Images.

(** The three bitmaps decoded at start-up. *)
Variables negativeImage neutralImage positiveImage : Image.

(** The start-up code: two neutral sprites at random places. *)
Definition init (r0x r0y r1x r1y : Z) : option Game :=
  let '(w, h) := Size neutralImage in
  x0 ← rand_Intn r0x (int_sub screenWidth w);
  y0 ← rand_Intn r0y (int_sub screenHeight h);
  x1 ← rand_Intn r1x (int_sub screenWidth w);
  y1 ← rand_Intn r1y (int_sub screenHeight h);
  let s0 := mkSprite ("Q" ++ Itoa 0) neutralImage x0 y0 0%float false in
  let s1 := mkSprite ("Q" ++ Itoa 1) neutralImage x1 y1 0%float false in
  Some (mkGame [s0; s1] ∅ [0%nat; 1%nat] None).

(** The handler of the "add" key: a new sprite object, appended to the
    slice. *)
Definition add_sprite (e : Engine) (g : Game) : option Game :=
  px ← rand_Intn (rand1 e) screenWidth;
  py ← rand_Intn (rand2 e) screenHeight;
  let s := mkSprite ("Q" ++ Itoa (Z.of_nat (length (sprites g))))
                    neutralImage px py 0%float false in
  Some (mkGame (heap g ++ [s]) (strokes g)
               (sprites g ++ [length (heap g)]) (ChosenSprite g)).

(** The image a drawn sprite takes from the sign of its charge. *)
Definition charge_image (s : Sprite) : Sprite :=
  if (0 <? charge s)%float then set_image positiveImage s
  else if (charge s <? 0)%float then set_image negativeImage s
  else set_image neutralImage s.

(** The state changes of the drawing phase: every sprite that no
    stroke drags takes the image of its charge.  The draw calls
    themselves only write to the screen. *)
Definition draw (g : Game) : option Game :=
  draggingSprites ← dragging_sprites (map_to_list (strokes g)).*2;
  Some (set_heap
          (foldl (fun h s => if decide (s ∈ draggingSprites) then h
                             else alter charge_image s h)
                 (heap g) (sprites g)) g).

(** The input phase of [update]: pointer-down events, then the keys. *)
Definition Game_input (e : Engine) (g : Game) : option Game :=
  let g := if IsMouseButtonJustPressed e then press e MouseStrokeSource g else g in
  let g := foldl (fun g id => press e (TouchStrokeSource id) g) g
                 (JustPressedTouchIDs e) in
  g ← (if IsKeyJustPressed e KeyA then add_sprite e g else Some g);
  let g := on_key e KeyP charge_up g in
  let g := on_key e KeyN charge_down g in
  let g := on_key e KeyUp nudge_up g in
  let g := on_key e KeyDown nudge_down g in
  let g := on_key e KeyRight nudge_right g in
  let g := on_key e KeyLeft nudge_left g in
  Some g.

(** The per-frame callback. *)
Definition Game_update (e : Engine) (g : Game) : option Game :=
  g ← Game_input e g;
  g ← strokes_loop e (range_strokes e g) g;
  if IsDrawingSkipped e then Some g else draw g.

(** One frame, for some answers of the engine. *)
Definition step (g g' : Game) : Prop :=
  exists e, fair_order e /\ Game_update e g = Some g'.

(** The states the program can be in between two frames. *)
Inductive reachable : Game -> Prop :=
  | reachable_init r0x r0y r1x r1y g :
      init r0x r0y r1x r1y = Some g -> reachable g
  | reachable_step g g' :
      reachable g -> step g g' -> reachable g'.

End Images.

(** A stroke after the frames [es], each with its own answers of the engine. *)
Definition Stroke_frames (es : list Engine) (s : Stroke) : Stroke :=
  foldl (fun s e => Stroke_Update e s) s es.

(** ** Specification-side notions *)

(** The bitmap of the sprite behind [q] has a pixel of positive alpha at
    the point [(px, py)] taken relative to the sprite's position. *)
Definition opaque_at (h : list Sprite) (q : SpritePtr) (px py : Z) : Prop :=
  exists s, h !! q = Some s
    /\ 0 < A (At (image s) (int_sub px (x s)) (int_sub py (y s))).

(** The sprite behind [p] carries the chosen flag. *)
Definition is_chosen (g : Game) (p : SpritePtr) : Prop :=
  exists s, heap g !! p = Some s /\ chosen s = true.

(** What holds of the state between two frames: the slice lists each
    allocated sprite at most once, live strokes are unreleased and drag
    a sprite of the slice or nothing, and the chosen flag marks exactly
    the sprite that [ChosenSprite] points to. *)
Record game_inv (g : Game) : Prop := mk_game_inv {
  inv_nodup : NoDup (sprites g);
  inv_alloc : forall p, p ∈ sprites g -> (p < length (heap g))%nat;
  inv_strokes : forall key st, strokes g !! key = Some st ->
      released st = false
      /\ exists op, draggingObject st = SpriteRef op
           /\ forall p, op = Some p -> p ∈ sprites g;
  inv_chosen : forall p, p ∈ sprites g ->
      (is_chosen g p <-> ChosenSprite g = Some p);
  inv_chosen_in : forall p, ChosenSprite g = Some p -> p ∈ sprites g
}.

(** One iteration of the loop over the strokes. *)
Definition strokes_iter (e : Engine) (s : StrokePtr) (g : Game) : option Game :=
  g ← Game_updateStroke e s g;
  st ← strokes g !! s;
  Some (if Stroke_IsReleased st
        then set_strokes (delete s (strokes g)) g else g).

(** The general shape of a loop over the slice that writes through each
    pointer; [range_sprites f] is [range_with (fun _ => f)]. *)
Definition range_with (F : SpritePtr -> Sprite -> Sprite) (l : list SpritePtr)
    (h : list Sprite) : list Sprite :=
  foldl (fun h p => alter (F p) p h) h l.

(** ** A concrete scene

    A 40 by 40 bitmap, opaque everywhere inside its bounds, stands for
    the three decoded images; the engines below answer one frame each. *)

Definition box_At (w h px py : Z) : RGBA :=
  if (0 <=? px) && (px <? w) && (0 <=? py) && (py <? h)
  then mkRGBA 255 255 255 255 else mkRGBA 0 0 0 0.

Definition box40 : Image := mkImage 40 40 (box_At 40 40) I I.

(** Nothing happens: the pointer rests at [pos]. *)
Definition idle_at (pos : Z * Z) : Engine :=
  mkEngine pos (fun _ => (0, 0)) false false [] (fun _ => false)
           (fun _ => false) false 0 0 (fun l => l).

(** The left button goes down at [pos]. *)
Definition mouse_down_at (pos : Z * Z) : Engine :=
  mkEngine pos (fun _ => (0, 0)) true false [] (fun _ => false)
           (fun _ => false) false 0 0 (fun l => l).

(** The left button goes up. *)
Definition mouse_up_at (pos : Z * Z) : Engine :=
  mkEngine pos (fun _ => (0, 0)) false true [] (fun _ => false)
           (fun _ => false) false 0 0 (fun l => l).

(** One key goes down; the two random values serve the "add" key. *)
Definition key_down (key : Key) (r1 r2 : Z) : Engine :=
  mkEngine (0, 0) (fun _ => (0, 0)) false false [] (fun _ => false)
           (fun k' => match key, k' with
                      | KeyA, KeyA | KeyP, KeyP | KeyN, KeyN | KeyUp, KeyUp
                      | KeyDown, KeyDown | KeyRight, KeyRight | KeyLeft, KeyLeft => true
                      | _, _ => false
                      end)
           false r1 r2 (fun l => l).

(** The frames [es] played from a state, stopping at a panic. *)
Definition play (es : list Engine) (g : option Game) : option Game :=
  foldl (fun g e => g ≫= Game_update box40 box40 box40 e) g es.

(** The state a run ends in; the empty game stands for a panic. *)
Definition the (g : option Game) : Game := default (mkGame [] ∅ [] None) g.

(** Two sprites, [Q0] at (100, 100) and [Q1] at (300, 200). *)
Definition scene0 : option Game := init box40 100 100 300 200.

(** A press on the empty canvas at (500, 400), dragged to (530, 440). *)
Definition scene_empty_drag : option Game :=
  play [mouse_down_at (500, 400); idle_at (530, 440)] scene0.

(** A press on [Q0] at (110, 110), dragged to (140, 150). *)
Definition scene_drag_Q0 : option Game :=
  play [mouse_down_at (110, 110); idle_at (140, 150)] scene0.

(** A press on [Q0] at (110, 110), dragged far off the screen to
    (1110, -890). *)
Definition scene_far_drag : option Game :=
  play [mouse_down_at (110, 110); idle_at (1110, -890)] scene0.

(** [Q0] picked with a click, then nudged left twice. *)
Definition scene_left : option Game :=
  play [mouse_down_at (110, 110); mouse_up_at (110, 110);
        key_down KeyLeft 0 0; key_down KeyLeft 0 0] scene0.

(** [Q0] picked with a click, then nudged down eight times. *)
Definition scene_down : option Game :=
  play (mouse_down_at (110, 110) :: mouse_up_at (110, 110)
          :: replicate 8 (key_down KeyDown 0 0)) scene0.

(** [Q0] picked with a click. *)
Definition scene_pick_Q0 : option Game :=
  play [mouse_down_at (110, 110); mouse_up_at (110, 110)] scene0.

(** A bitmap larger than the screen in both directions. *)
Definition box900 : Image := mkImage 900 600 (box_At 900 600) I I.

(** The sprite lies inside the screen, as [MoveBy] leaves it. *)
Definition on_screen (s : Sprite) : Prop :=
  0 <= x s <= screenWidth - img_w (image s)
  /\ 0 <= y s <= screenHeight - img_h (image s).

(** Every sprite object of the store [h] is still in [h'], related
    by [R] to what it was. *)
Definition heap_rel (R : Sprite -> Sprite -> Prop) (h h' : list Sprite) : Prop :=
  forall p s, h !! p = Some s -> exists s', h' !! p = Some s' /\ R s s'.

(** The frame has a pointer-down event. *)
Definition pointer_down (e : Engine) : Prop :=
  IsMouseButtonJustPressed e = true \/ JustPressedTouchIDs e <> [].

(** Some device reports a release in this frame. *)
Definition pointer_up (e : Engine) : Prop :=
  IsMouseButtonJustReleased e = true \/ exists id, IsTouchJustReleased e id = true.

(** What a stroke keeps for life: its device, its origin and its object. *)
Definition same_stroke (st st' : Stroke) : Prop :=
  source st' = source st /\ initX st' = initX st /\ initY st' = initY st
  /\ draggingObject st' = draggingObject st.

(** The two states have as many sprite objects, the same strokes and
    the same selection. *)
Definition same_shape (g g' : Game) : Prop :=
  length (heap g') = length (heap g)
  /\ strokes g' = strokes g /\ ChosenSprite g' = ChosenSprite g.

(** Some stroke of the set drags the sprite behind [p]. *)
Definition dragged (g : Game) (p : SpritePtr) : Prop :=
  exists key st, strokes g !! key = Some st
    /\ Stroke_DraggingObject st = SpriteRef (Some p).

(** ** Machine integers: basic facts *)

Lemma wrap_is_int (z : Z) : is_int (wrap z).
Proof.
  unfold is_int, wrap, min_int, max_int.
  pose proof (Z.mod_pos_bound (z + 2 ^ 63) (2 ^ 64) ltac:(lia)). lia.
Qed.

Lemma wrap_exact (z : Z) : is_int z -> wrap z = z.
Proof.
  unfold is_int, wrap, min_int, max_int. intros Hz.
  rewrite Z.mod_small by lia. lia.
Qed.

Lemma int_sub_exact (a b : Z) : is_int (a - b) -> int_sub a b = a - b.
Proof. apply wrap_exact. Qed.

Lemma int_add_exact (a b : Z) : is_int (a + b) -> int_add a b = a + b.
Proof. apply wrap_exact. Qed.

Lemma int_sub_diag (a : Z) : int_sub a a = 0.
Proof. unfold int_sub. rewrite Z.sub_diag. reflexivity. Qed.

Lemma img_w_bounds (i : Image) : 0 <= img_w i <= max_int.
Proof.
  pose proof (img_w_int i) as H. apply Is_true_true in H.
  apply andb_true_iff in H as [H1 H2]. lia.
Qed.

Lemma img_h_bounds (i : Image) : 0 <= img_h i <= max_int.
Proof.
  pose proof (img_h_int i) as H. apply Is_true_true in H.
  apply andb_true_iff in H as [H1 H2]. lia.
Qed.

(** ** Strokes *)

Lemma Stroke_Update_init (e : Engine) (s : Stroke) :
  initX (Stroke_Update e s) = initX s /\ initY (Stroke_Update e s) = initY s.
Proof.
  unfold Stroke_Update. destruct (released s); [done|].
  destruct (source_IsJustReleased e (source s)); [done|].
  by destruct (source_Position e (source s)).
Qed.

Lemma Stroke_frames_init (es : list Engine) (s : Stroke) :
  initX (Stroke_frames es s) = initX s /\ initY (Stroke_frames es s) = initY s.
Proof.
  revert s. induction es as [|e es IH]; intros s; [done|].
  change (Stroke_frames (e :: es) s) with (Stroke_frames es (Stroke_Update e s)).
  destruct (IH (Stroke_Update e s)) as [-> ->]. apply Stroke_Update_init.
Qed.

(** C2.  [PositionDiff] of any stroke is the pair of the Go differences
    [currentX - initX] and [currentY - initY]; these are the mathematical
    differences whenever those fit an [int]; and at every frame after
    [NewStroke] the origin [initX, initY] is still the position polled at
    pointer-down. *)
Theorem PositionDiff_current_minus_origin :
  (forall s : Stroke,
      Stroke_PositionDiff s
      = (int_sub (currentX s) (initX s), int_sub (currentY s) (initY s))
      /\ (is_int (currentX s - initX s) -> is_int (currentY s - initY s) ->
          Stroke_PositionDiff s = (currentX s - initX s, currentY s - initY s)))
  /\ (forall (e0 : Engine) (src : StrokeSource) (es : list Engine),
        let s := Stroke_frames es (NewStroke e0 src) in
        (initX s, initY s) = source_Position e0 src
        /\ Stroke_PositionDiff s
           = (int_sub (currentX s) (fst (source_Position e0 src)),
              int_sub (currentY s) (snd (source_Position e0 src)))).
Proof.
  split.
  - intros s. split; [reflexivity|]. intros Hx Hy.
    unfold Stroke_PositionDiff. by rewrite !int_sub_exact.
  - intros e0 src es s.
    destruct (Stroke_frames_init es (NewStroke e0 src)) as [Hx Hy].
    fold s in Hx, Hy. unfold Stroke_PositionDiff. rewrite Hx, Hy.
    unfold NewStroke. by destruct (source_Position e0 src).
Qed.

(** ** Moving a sprite *)

(** C9.  When the image is no larger than the screen, [MoveBy] leaves
    the sprite inside the screen, whatever the displacement. *)
Theorem MoveBy_within_screen (s : Sprite) (dx dy : Z) :
  img_w (image s) <= screenWidth ->
  img_h (image s) <= screenHeight ->
  0 <= x (Sprite_MoveBy dx dy s) <= screenWidth - img_w (image s)
  /\ 0 <= y (Sprite_MoveBy dx dy s) <= screenHeight - img_h (image s).
Proof.
  intros Hw Hh.
  pose proof (img_w_bounds (image s)) as Bw.
  pose proof (img_h_bounds (image s)) as Bh.
  assert (Ew : int_sub screenWidth (img_w (image s)) = screenWidth - img_w (image s)).
  { apply int_sub_exact. unfold is_int, min_int, max_int, screenWidth, fullScreenWidth in *. lia. }
  assert (Eh : int_sub screenHeight (img_h (image s)) = screenHeight - img_h (image s)).
  { apply int_sub_exact.
    change screenHeight with 540 in *. unfold is_int, min_int, max_int in *. lia. }
  unfold Sprite_MoveBy, Size. rewrite Ew, Eh. cbn.
  repeat (case_match; cbn in * ); lia.
Qed.

(** ** Picking *)

Lemma spriteAt_from_spec (h : list Sprite) (l : list SpritePtr) (px py : Z) (i : nat) :
  (i <= length l)%nat ->
  match spriteAt_from h l i px py with
  | Some s =>
      exists n, (n < i)%nat /\ l !! n = Some s /\ In_at h s px py = true
        /\ forall m q, (n < m < i)%nat -> l !! m = Some q -> In_at h q px py = false
  | None =>
      forall m q, (m < i)%nat -> l !! m = Some q -> In_at h q px py = false
  end.
Proof.
  induction i as [|j IH]; intros Hi; cbn.
  { intros m q Hm. lia. }
  destruct (lookup_lt_is_Some_2 l j ltac:(lia)) as [s Hs]. rewrite Hs.
  destruct (In_at h s px py) eqn:Hin.
  - exists j. repeat split; [lia|done|done|]. intros m q Hm. lia.
  - specialize (IH ltac:(lia)).
    destruct (spriteAt_from h l j px py) as [s'|].
    + destruct IH as (n & Hn & Hl & Hs' & Habove).
      exists n. repeat split; [lia|done|done|].
      intros m q Hm Hq. destruct (decide (m = j)) as [->|Hne].
      * congruence.
      * apply (Habove m q); [lia|done].
    + intros m q Hm Hq. destruct (decide (m = j)) as [->|Hne].
      * congruence.
      * apply (IH m q); [lia|done].
Qed.

Lemma In_at_opaque (h : list Sprite) (q : SpritePtr) (px py : Z) :
  In_at h q px py = true <-> opaque_at h q px py.
Proof.
  unfold In_at, opaque_at, Sprite_In. split.
  - destruct (h !! q) as [s|]; [|done]. intros H. exists s. split; [done|lia].
  - intros (s & -> & H). lia.
Qed.

Lemma In_at_not_opaque (h : list Sprite) (q : SpritePtr) (px py : Z) :
  In_at h q px py = false <-> ~ opaque_at h q px py.
Proof.
  rewrite <- In_at_opaque. destruct (In_at h q px py); split; congruence.
Qed.

(** C3.  [spriteAt] returns the sprite at the greatest index of the
    slice whose bitmap is opaque at the point taken relative to the
    sprite, and nil exactly when no sprite of the slice is opaque there. *)
Theorem spriteAt_topmost (g : Game) (px py : Z) :
  match Game_spriteAt g px py with
  | Some s =>
      exists n, sprites g !! n = Some s /\ opaque_at (heap g) s px py
        /\ forall m q, (n < m)%nat -> sprites g !! m = Some q ->
                       ~ opaque_at (heap g) q px py
  | None =>
      forall q, q ∈ sprites g -> ~ opaque_at (heap g) q px py
  end.
Proof.
  unfold Game_spriteAt.
  pose proof (spriteAt_from_spec (heap g) (sprites g) px py (length (sprites g))
                ltac:(lia)) as H.
  destruct (spriteAt_from _ _ _ _ _) as [s|].
  - destruct H as (n & Hn & Hl & Hs & Habove).
    exists n. repeat split; [done|by apply In_at_opaque|].
    intros m q Hm Hq. apply In_at_not_opaque, (Habove m q); [|done].
    apply lookup_lt_Some in Hq. lia.
  - intros q Hq. apply list_elem_of_lookup in Hq as [m Hm].
    apply In_at_not_opaque, (H m q); [|done]. by apply lookup_lt_Some in Hm.
Qed.

Lemma spriteAt_elem (g : Game) (px py : Z) (p : SpritePtr) :
  Game_spriteAt g px py = Some p -> p ∈ sprites g.
Proof.
  unfold Game_spriteAt. intros H.
  pose proof (spriteAt_from_spec (heap g) (sprites g) px py (length (sprites g))
                ltac:(lia)) as Hs.
  rewrite H in Hs. destruct Hs as (n & _ & Hn & _).
  apply list_elem_of_lookup. eauto.
Qed.

(** ** Loops over the slice of sprites *)

Lemma range_with_cons F (p : SpritePtr) l h :
  range_with F (p :: l) h = range_with F l (alter (F p) p h).
Proof. reflexivity. Qed.

Lemma range_with_length F l h : length (range_with F l h) = length h.
Proof.
  revert h. induction l as [|p l IH]; intros h; [done|].
  rewrite range_with_cons, IH. apply length_alter.
Qed.

Lemma range_with_notin F l h (p : SpritePtr) :
  p ∉ l -> range_with F l h !! p = h !! p.
Proof.
  revert h. induction l as [|q l IH]; intros h Hp; [done|].
  apply not_elem_of_cons in Hp as [Hne Hp].
  rewrite range_with_cons, IH by done. by apply list_lookup_alter_ne.
Qed.

Lemma range_with_in F l h (p : SpritePtr) :
  NoDup l -> p ∈ l -> range_with F l h !! p = F p <$> h !! p.
Proof.
  revert h. induction l as [|q l IH]; intros h Hnd Hp.
  { by apply elem_of_nil in Hp. }
  apply NoDup_cons in Hnd as [Hq Hnd]. rewrite range_with_cons.
  apply elem_of_cons in Hp as [->|Hp].
  - rewrite range_with_notin by done. apply list_lookup_alter_eq.
  - rewrite IH by done. rewrite list_lookup_alter_ne; [done|].
    intros ->. done.
Qed.

(** Whatever the slice, a field that the loop body keeps is kept. *)
Lemma range_with_rel (R : Sprite -> Sprite -> Prop) F l h (p : SpritePtr) s :
  (forall a, R a a) -> (forall a b c, R a b -> R b c -> R a c) ->
  (forall q a, R a (F q a)) ->
  h !! p = Some s ->
  exists s', range_with F l h !! p = Some s' /\ R s s'.
Proof.
  intros Hrefl Htrans HF. revert h s.
  induction l as [|q l IH]; intros h s Hs.
  { eauto. }
  rewrite range_with_cons.
  destruct (decide (q = p)) as [->|Hne].
  - destruct (IH (alter (F p) p h) (F p s)) as (s' & Hs' & HR).
    { by rewrite list_lookup_alter_eq, Hs. }
    exists s'. split; [done|]. eapply Htrans; [apply HF|done].
  - apply IH. by rewrite list_lookup_alter_ne.
Qed.

Lemma range_sprites_with f l h : range_sprites f l h = range_with (fun _ => f) l h.
Proof. reflexivity. Qed.

Lemma when_chosen_chosen f s :
  (forall a, chosen (f a) = chosen a) -> chosen (when_chosen f s) = chosen s.
Proof. intros Hf. unfold when_chosen. destruct (chosen s) eqn:E; [by rewrite Hf|done]. Qed.

(** ** Preservation of the invariant *)

(** A write to the store that keeps every chosen flag keeps the invariant. *)
Lemma game_inv_set_heap (g : Game) (h' : list Sprite) :
  length h' = length (heap g) ->
  (forall p s, heap g !! p = Some s ->
               exists s', h' !! p = Some s' /\ chosen s' = chosen s) ->
  game_inv g -> game_inv (set_heap h' g).
Proof.
  intros Hlen Hkeep [Hnd Hal Hst Hch Hin].
  split; cbn; try done.
  - intros p Hp. rewrite Hlen. by apply Hal.
  - intros p Hp. rewrite <- (Hch p Hp). unfold is_chosen. cbn.
    destruct (lookup_lt_is_Some_2 (heap g) p (Hal p Hp)) as [s Hs].
    destruct (Hkeep p s Hs) as (s' & Hs' & Hc).
    split.
    + intros (s2 & H2 & Hc2). exists s. split; [done|]. congruence.
    + intros (s2 & H2 & Hc2). exists s'. split; [done|]. congruence.
Qed.

Lemma game_inv_range (g : Game) F :
  (forall q a, chosen (F q a) = chosen a) ->
  game_inv g -> game_inv (set_heap (range_with F (sprites g) (heap g)) g).
Proof.
  intros HF. apply game_inv_set_heap.
  - apply range_with_length.
  - intros p s Hs.
    destruct (range_with_rel (fun a b => chosen b = chosen a) F (sprites g) (heap g) p s)
      as (s' & Hs' & Hc); try done.
    + intros a b c. congruence.
    + eauto.
Qed.

Lemma charge_up_inv g : game_inv g -> game_inv (charge_up g).
Proof. apply game_inv_range. intros _ a. by apply when_chosen_chosen. Qed.
Lemma charge_down_inv g : game_inv g -> game_inv (charge_down g).
Proof. apply game_inv_range. intros _ a. by apply when_chosen_chosen. Qed.
Lemma nudge_up_inv g : game_inv g -> game_inv (nudge_up g).
Proof. apply game_inv_range. intros _ a. by apply when_chosen_chosen. Qed.
Lemma nudge_down_inv g : game_inv g -> game_inv (nudge_down g).
Proof. apply game_inv_range. intros _ a. by apply when_chosen_chosen. Qed.
Lemma nudge_right_inv g : game_inv g -> game_inv (nudge_right g).
Proof. apply game_inv_range. intros _ a. by apply when_chosen_chosen. Qed.
Lemma nudge_left_inv g : game_inv g -> game_inv (nudge_left g).
Proof. apply game_inv_range. intros _ a. by apply when_chosen_chosen. Qed.

Lemma on_key_inv e key f g :
  (forall g, game_inv g -> game_inv (f g)) -> game_inv g -> game_inv (on_key e key f g).
Proof. intros Hf Hg. unfold on_key. destruct (IsKeyJustPressed e key); auto. Qed.

(** The invariant only reads the slice up to its order, the chosen flags
    of the store, and the strokes. *)
Lemma game_inv_transport (g g' : Game) :
  game_inv g ->
  sprites g' ≡ₚ sprites g ->
  length (heap g') = length (heap g) ->
  (forall p s, heap g !! p = Some s ->
               exists s', heap g' !! p = Some s' /\ chosen s' = chosen s) ->
  ChosenSprite g' = ChosenSprite g ->
  (forall key st, strokes g' !! key = Some st ->
      released st = false
      /\ exists op, draggingObject st = SpriteRef op
           /\ forall p, op = Some p -> p ∈ sprites g) ->
  game_inv g'.
Proof.
  intros [Hnd Hal Hst Hch Hin] Hperm Hlen Hkeep Hcs Hstr.
  split.
  - by rewrite Hperm.
  - intros p Hp. rewrite Hperm in Hp. rewrite Hlen. by apply Hal.
  - intros key st Hk. destruct (Hstr key st Hk) as (Hr & op & Hop & Hin').
    split; [done|]. exists op. split; [done|].
    intros p Hp. rewrite Hperm. by apply Hin'.
  - intros p Hp. rewrite Hperm in Hp. rewrite Hcs, <- (Hch p Hp).
    unfold is_chosen.
    destruct (lookup_lt_is_Some_2 (heap g) p (Hal p Hp)) as [s Hs].
    destruct (Hkeep p s Hs) as (s' & Hs' & Hc).
    split.
    + intros (s2 & H2 & Hc2). exists s. split; [done|]. congruence.
    + intros (s2 & H2 & Hc2). exists s'. split; [done|]. congruence.
  - intros p Hp. rewrite Hperm. apply Hin. congruence.
Qed.

Lemma NewStroke_fields e src :
  released (NewStroke e src) = false
  /\ (initX (NewStroke e src), initY (NewStroke e src)) = source_Position e src
  /\ (currentX (NewStroke e src), currentY (NewStroke e src)) = source_Position e src.
Proof. unfold NewStroke. by destruct (source_Position e src). Qed.

Lemma press_fields e src g :
  exists px py,
    let sp := Game_spriteAt g px py in
    let h1 := range_with (fun _ => set_chosen false) (sprites g) (heap g) in
    (px, py) = source_Position e src
    /\ sprites (press e src g) = sprites g
    /\ ChosenSprite (press e src g) = sp
    /\ heap (press e src g)
       = match sp with Some p => alter (set_chosen true) p h1 | None => h1 end
    /\ strokes (press e src g)
       = <[fresh (dom (strokes g)) :=
             Stroke_SetDraggingObject (SpriteRef sp) (NewStroke e src)]> (strokes g).
Proof.
  destruct (NewStroke_fields e src) as (_ & _ & Hc).
  exists (currentX (NewStroke e src)), (currentY (NewStroke e src)).
  unfold press, Stroke_Position. cbn.
  repeat split; try done.
  all: by destruct (Game_spriteAt g _ _).
Qed.

Lemma press_inv e src g : game_inv g -> game_inv (press e src g).
Proof.
  intros Hg. pose proof Hg as [Hnd Hal Hst Hch Hin].
  destruct (press_fields e src g) as (px & py & Hpos & Hsp & Hcs & Hh & Hs).
  cbn zeta in *. set (sp := Game_spriteAt g px py) in *.
  set (h1 := range_with (fun _ => set_chosen false) (sprites g) (heap g)) in *.
  assert (Hlen : length (heap (press e src g)) = length (heap g)).
  { rewrite Hh. destruct sp; rewrite ?length_alter; apply range_with_length. }
  assert (Hh1 : forall p, p ∈ sprites g ->
                  exists s, h1 !! p = Some s /\ chosen s = false).
  { intros p Hp. destruct (lookup_lt_is_Some_2 (heap g) p (Hal p Hp)) as [s Hs'].
    exists (set_chosen false s). split; [|done].
    unfold h1. rewrite range_with_in by done. by rewrite Hs'. }
  split.
  - by rewrite Hsp.
  - intros p. rewrite Hsp, Hlen. apply Hal.
  - intros key st. rewrite Hs, Hsp.
    destruct (decide (fresh (dom (strokes g)) = key)) as [<-|Hne].
    + rewrite lookup_insert_eq. intros [= <-]. cbn. split.
      * apply NewStroke_fields.
      * exists sp. split; [done|]. intros p Hp. by apply (spriteAt_elem g px py).
    + rewrite lookup_insert_ne by done. apply Hst.
  - intros p. rewrite Hsp, Hcs. intros Hp.
    destruct (Hh1 p Hp) as (s & Hs1 & Hc). unfold is_chosen. rewrite Hh.
    destruct sp as [q|] eqn:Esp.
    + destruct (decide (q = p)) as [->|Hne].
      * rewrite list_lookup_alter_eq, Hs1. cbn. split; [done|].
        intros _. by exists (set_chosen true s).
      * rewrite list_lookup_alter_ne by done. split.
        -- intros (s2 & H2 & Hc2). congruence.
        -- intros [= ->]. done.
    + split; [|done]. intros (s2 & H2 & Hc2). congruence.
  - intros p. rewrite Hsp, Hcs. intros Hp. by apply (spriteAt_elem g px py).
Qed.

Lemma add_sprite_Some (neutralImage : Image) e g :
  exists px py,
    add_sprite neutralImage e g
    = Some (mkGame
              (heap g ++ [mkSprite ("Q" ++ Itoa (Z.of_nat (length (sprites g))))
                                   neutralImage px py 0%float false])
              (strokes g) (sprites g ++ [length (heap g)]) (ChosenSprite g)).
Proof. unfold add_sprite. cbn. eauto. Qed.

Lemma add_sprite_inv (neutralImage : Image) e g g' :
  add_sprite neutralImage e g = Some g' -> game_inv g -> game_inv g'.
Proof.
  destruct (add_sprite_Some neutralImage e g) as (px & py & ->).
  intros [= <-] [Hnd Hal Hst Hch Hin].
  assert (Hfresh : length (heap g) ∉ sprites g).
  { intros H. apply Hal in H. lia. }
  split; cbn.
  - apply NoDup_app. split; [done|]. split; [|apply NoDup_singleton].
    intros p Hp Hp'. apply list_elem_of_singleton in Hp' as ->. done.
  - intros p Hp. rewrite length_app. cbn.
    apply elem_of_app in Hp as [Hp|Hp].
    + apply Hal in Hp. lia.
    + apply list_elem_of_singleton in Hp as ->. lia.
  - intros key st Hk. destruct (Hst key st Hk) as (Hr & op & Hop & Hin').
    split; [done|]. exists op. split; [done|].
    intros p Hp. apply elem_of_app. left. by apply Hin'.
  - intros p Hp. unfold is_chosen. cbn.
    apply elem_of_app in Hp as [Hp|Hp].
    + rewrite lookup_app_l by by apply Hal. apply (Hch p Hp).
    + apply list_elem_of_singleton in Hp as ->.
      rewrite list_lookup_middle by done. split.
      * intros (s & [= <-] & Hc). done.
      * intros Hc. apply Hin in Hc. done.
  - intros p Hp. apply elem_of_app. left. by apply Hin.
Qed.

(** ** Releasing a stroke *)

Lemma index_of_spec (s : SpritePtr) (l : list SpritePtr) :
  match index_of s l with
  | Some i => l !! i = Some s /\ s ∉ take i l
  | None => s ∉ l
  end.
Proof.
  induction l as [|q l IH]; cbn.
  { apply not_elem_of_nil. }
  case_decide as Hq.
  - subst q. split; [done|]. apply not_elem_of_nil.
  - destruct (index_of s l) as [i|]; cbn.
    + destruct IH as [Hl Hn]. split; [done|].
      apply not_elem_of_cons. split; [congruence|done].
    + apply not_elem_of_cons. split; [congruence|done].
Qed.

Lemma index_of_elem (s : SpritePtr) (l : list SpritePtr) :
  s ∈ l -> exists i, index_of s l = Some i /\ l !! i = Some s /\ s ∉ take i l.
Proof.
  intros Hs. pose proof (index_of_spec s l) as H.
  destruct (index_of s l) as [i|]; [|done]. exists i. by destruct H.
Qed.

Lemma remove_append_perm (l : list SpritePtr) (i : nat) (s : SpritePtr) :
  l !! i = Some s -> (take i l ++ drop (S i) l) ++ [s] ≡ₚ l.
Proof.
  intros Hs. rewrite <- (take_drop_middle l i s Hs) at 3.
  rewrite <- app_assoc. apply Permutation_app_head.
  rewrite <- Permutation_cons_append. done.
Qed.

Lemma Stroke_Update_dragging e st :
  draggingObject (Stroke_Update e st) = draggingObject st.
Proof.
  unfold Stroke_Update. destruct (released st); [done|].
  destruct (source_IsJustReleased e (source st)); [done|].
  by destruct (source_Position e (source st)).
Qed.

(** On the frame of its release a stroke keeps the position of the frame before. *)
Lemma Stroke_Update_released_diff e st :
  released (Stroke_Update e st) = true ->
  Stroke_PositionDiff (Stroke_Update e st) = Stroke_PositionDiff st.
Proof.
  unfold Stroke_Update. destruct (released st) eqn:Hr; [done|].
  destruct (source_IsJustReleased e (source st)); [done|].
  destruct (source_Position e (source st)). cbn. congruence.
Qed.

Lemma Stroke_Update_released_fixed e st :
  released st = true -> Stroke_Update e st = st.
Proof. unfold Stroke_Update. by intros ->. Qed.

Lemma Sprite_MoveBy_chosen dx dy s : chosen (Sprite_MoveBy dx dy s) = chosen s.
Proof. unfold Sprite_MoveBy, Size. cbn. by repeat case_match. Qed.

Lemma updateStroke_live e key g st :
  strokes g !! key = Some st ->
  released (Stroke_Update e st) = false ->
  Game_updateStroke e key g
  = Some (set_strokes (<[key := Stroke_Update e st]> (strokes g)) g).
Proof. intros Hk Hr. unfold Game_updateStroke, Stroke_IsReleased. rewrite Hk. cbn. by rewrite Hr. Qed.

Lemma updateStroke_release_nil e key g st :
  strokes g !! key = Some st ->
  released (Stroke_Update e st) = true ->
  draggingObject st = SpriteRef None ->
  Game_updateStroke e key g
  = Some (set_strokes (<[key := Stroke_Update e st]> (strokes g)) g).
Proof.
  intros Hk Hr Hd. unfold Game_updateStroke, Stroke_IsReleased, Stroke_DraggingObject.
  rewrite Hk. cbn. by rewrite Hr, Stroke_Update_dragging, Hd.
Qed.

Lemma updateStroke_release_sprite e key g st p i :
  strokes g !! key = Some st ->
  released (Stroke_Update e st) = true ->
  draggingObject st = SpriteRef (Some p) ->
  index_of p (sprites g) = Some i ->
  Game_updateStroke e key g
  = Some (mkGame
            (alter (Sprite_MoveBy (Stroke_PositionDiff (Stroke_Update e st)).1
                                  (Stroke_PositionDiff (Stroke_Update e st)).2) p (heap g))
            (<[key := Stroke_SetDraggingObject nil_iface (Stroke_Update e st)]>
               (<[key := Stroke_Update e st]> (strokes g)))
            ((take i (sprites g) ++ drop (S i) (sprites g)) ++ [p])
            (ChosenSprite g)).
Proof.
  intros Hk Hr Hd Hi. unfold Game_updateStroke, Stroke_IsReleased, Stroke_DraggingObject.
  rewrite Hk. cbn. rewrite Hr, Stroke_Update_dragging, Hd. cbn. by rewrite Hi.
Qed.

Lemma updateStroke_release_missing e key g st p :
  strokes g !! key = Some st ->
  released (Stroke_Update e st) = true ->
  draggingObject st = SpriteRef (Some p) ->
  p ∉ sprites g ->
  Game_updateStroke e key g = None.
Proof.
  intros Hk Hr Hd Hp. unfold Game_updateStroke, Stroke_IsReleased, Stroke_DraggingObject.
  rewrite Hk. cbn. rewrite Hr, Stroke_Update_dragging, Hd. cbn.
  pose proof (index_of_spec p (sprites g)) as H.
  destruct (index_of p (sprites g)) as [i|]; [|done].
  destruct H as [H _]. exfalso. apply Hp. apply list_elem_of_lookup. eauto.
Qed.

(** ** Exact moves *)

Lemma screen_sub_exact (i : Image) :
  int_sub screenWidth (img_w i) = screenWidth - img_w i
  /\ int_sub screenHeight (img_h i) = screenHeight - img_h i.
Proof.
  pose proof (img_w_bounds i) as Bw. pose proof (img_h_bounds i) as Bh.
  change screenWidth with 800. change screenHeight with 540.
  split; apply int_sub_exact; unfold is_int, min_int, max_int in *; lia.
Qed.

Lemma Sprite_MoveBy_fields (dx dy : Z) (s : Sprite) :
  Sprite_MoveBy dx dy s
  = mkSprite (name s) (image s) (x (Sprite_MoveBy dx dy s))
             (y (Sprite_MoveBy dx dy s)) (charge s) (chosen s).
Proof. unfold Sprite_MoveBy, Size. cbn. by repeat case_match. Qed.

Lemma Sprite_MoveBy_inside (dx dy : Z) (s : Sprite) :
  0 <= x s + dx <= screenWidth - img_w (image s) ->
  0 <= y s + dy <= screenHeight - img_h (image s) ->
  x (Sprite_MoveBy dx dy s) = x s + dx /\ y (Sprite_MoveBy dx dy s) = y s + dy.
Proof.
  intros Hx Hy. destruct (screen_sub_exact (image s)) as [Ew Eh].
  pose proof (img_w_bounds (image s)) as Bw.
  pose proof (img_h_bounds (image s)) as Bh.
  assert (Ex : int_add (x s) dx = x s + dx).
  { apply int_add_exact. change screenWidth with 800 in *.
    unfold is_int, min_int, max_int. lia. }
  assert (Ey : int_add (y s) dy = y s + dy).
  { apply int_add_exact. change screenHeight with 540 in *.
    unfold is_int, min_int, max_int. lia. }
  unfold Sprite_MoveBy, Size, set_x, set_y. cbn [x y image name charge chosen].
  rewrite Ew, Eh, Ex, Ey.
  repeat (case_match; cbn [x y image name charge chosen] in * ); lia.
Qed.

Lemma Sprite_MoveBy_exact (dx dy : Z) (s : Sprite) :
  0 <= x s + dx <= screenWidth - img_w (image s) ->
  0 <= y s + dy <= screenHeight - img_h (image s) ->
  Sprite_MoveBy dx dy s
  = mkSprite (name s) (image s) (x s + dx) (y s + dy) (charge s) (chosen s).
Proof.
  intros Hx Hy. rewrite (Sprite_MoveBy_fields dx dy s).
  by destruct (Sprite_MoveBy_inside dx dy s Hx Hy) as [-> ->].
Qed.

(** C1 (as amended).  When the release of a stroke that drags a sprite
    of the slice is processed, [updateStroke] applies [MoveBy] with the
    stroke's position delta to that sprite, once: the sprite is moved by
    exactly the delta when the target lies inside the screen, and is
    clamped to the screen otherwise.  Its pointer moves to the end of
    the slice; every other sprite object is untouched and the other
    pointers keep their relative order. *)
Theorem updateStroke_release_commits
    (e : Engine) (key : StrokePtr) (g : Game) (st : Stroke) (p : SpritePtr) :
  strokes g !! key = Some st ->
  Stroke_IsReleased (Stroke_Update e st) = true ->
  Stroke_DraggingObject st = SpriteRef (Some p) ->
  p ∈ sprites g ->
  exists g' l1 l2,
    Game_updateStroke e key g = Some g'
    /\ heap g' = alter (Sprite_MoveBy (Stroke_PositionDiff st).1
                                       (Stroke_PositionDiff st).2) p (heap g)
    /\ (forall s, heap g !! p = Some s ->
          0 <= x s + (Stroke_PositionDiff st).1 <= screenWidth - img_w (image s) ->
          0 <= y s + (Stroke_PositionDiff st).2 <= screenHeight - img_h (image s) ->
          heap g' !! p
          = Some (mkSprite (name s) (image s)
                           (x s + (Stroke_PositionDiff st).1)
                           (y s + (Stroke_PositionDiff st).2)
                           (charge s) (chosen s)))
    /\ (forall q, q <> p -> heap g' !! q = heap g !! q)
    /\ sprites g = l1 ++ (p :: l2) /\ (p ∉ l1)
    /\ sprites g' = l1 ++ l2 ++ [p]
    /\ last (sprites g') = Some p.
Proof.
  intros Hk Hr Hd Hp.
  destruct (index_of_elem p (sprites g) Hp) as (i & Hi & Hl & Hn).
  exists (mkGame
            (alter (Sprite_MoveBy (Stroke_PositionDiff (Stroke_Update e st)).1
                                  (Stroke_PositionDiff (Stroke_Update e st)).2) p (heap g))
            (<[key := Stroke_SetDraggingObject nil_iface (Stroke_Update e st)]>
               (<[key := Stroke_Update e st]> (strokes g)))
            ((take i (sprites g) ++ drop (S i) (sprites g)) ++ [p])
            (ChosenSprite g)),
    (take i (sprites g)), (drop (S i) (sprites g)).
  split; [by apply updateStroke_release_sprite|]. cbn [heap sprites].
  rewrite (Stroke_Update_released_diff e st Hr).
  split; [done|]. split.
  { intros s Hs Hx Hy.
    rewrite list_lookup_alter_eq, Hs, <- (Sprite_MoveBy_exact _ _ s Hx Hy). done. }
  split.
  { intros q Hq. by apply list_lookup_alter_ne. }
  split; [by rewrite take_drop_middle|]. split; [done|].
  split; [by rewrite app_assoc|]. apply last_snoc.
Qed.

Lemma updateStroke_release_commits_witness :
  let g := the scene_drag_Q0 in
  let st := mkStroke MouseStrokeSource 110 110 140 150 false (SpriteRef (Some 0%nat)) in
  strokes g !! 0%nat = Some st
  /\ exists g' l1 l2,
       Game_updateStroke (mouse_up_at (140, 150)) 0%nat g = Some g'
       /\ heap g' = alter (Sprite_MoveBy 30 40) 0%nat (heap g)
       /\ (forall s, heap g !! 0%nat = Some s ->
             0 <= x s + 30 <= screenWidth - img_w (image s) ->
             0 <= y s + 40 <= screenHeight - img_h (image s) ->
             heap g' !! 0%nat
             = Some (mkSprite (name s) (image s) (x s + 30) (y s + 40)
                              (charge s) (chosen s)))
       /\ (forall q, q <> 0%nat -> heap g' !! q = heap g !! q)
       /\ sprites g = l1 ++ (0%nat :: l2) /\ (0%nat ∉ l1)
       /\ sprites g' = l1 ++ l2 ++ [0%nat]
       /\ last (sprites g') = Some 0%nat.
Proof.
  intros g st.
  assert (Hk : strokes g !! 0%nat = Some st) by (vm_compute; reflexivity).
  split; [exact Hk|].
  apply (updateStroke_release_commits (mouse_up_at (140, 150)) 0%nat g st 0%nat Hk).
  - reflexivity.
  - reflexivity.
  - change (0%nat ∈ [0%nat; 1%nat]). apply elem_of_cons. by left.
Defined.

(** C1 as stated fails in two ways.  A stroke that drags nothing: its
    release is processed, the delta is (30, 40), and neither sprite is
    moved nor is the slice reordered.  A stroke that drags [Q0] from
    (100, 100) with the delta (1000, -1000): the release leaves [Q0] at
    (760, 0), the screen bounds, not at (1100, -900). *)
Lemma release_commits_nothing_or_clamped :
  (exists g st,
     scene_empty_drag = Some g
     /\ strokes g !! 0%nat = Some st
     /\ Stroke_IsReleased (Stroke_Update (mouse_up_at (530, 440)) st) = true
     /\ Stroke_PositionDiff st = (30, 40)
     /\ exists g', Game_updateStroke (mouse_up_at (530, 440)) 0%nat g = Some g'
          /\ heap g' = heap g /\ sprites g' = sprites g
          /\ ~ (exists p s, heap g !! p = Some s
                  /\ heap g' !! p = Some (Sprite_MoveBy 30 40 s)))
  /\ (exists g st s,
        scene_far_drag = Some g
        /\ strokes g !! 0%nat = Some st
        /\ Stroke_IsReleased (Stroke_Update (mouse_up_at (1110, -890)) st) = true
        /\ Stroke_DraggingObject st = SpriteRef (Some 0%nat)
        /\ Stroke_PositionDiff st = (1000, -1000)
        /\ heap g !! 0%nat = Some s /\ x s = 100 /\ y s = 100
        /\ exists g' s', Game_updateStroke (mouse_up_at (1110, -890)) 0%nat g = Some g'
             /\ heap g' !! 0%nat = Some s'
             /\ x s' = 760 /\ y s' = 0
             /\ (x s', y s') <> (x s + 1000, y s + -1000)).
Proof.
  split.
  - eexists. eexists. split; [vm_compute; reflexivity|].
    split; [vm_compute; reflexivity|].
    split; [vm_compute; reflexivity|].
    split; [vm_compute; reflexivity|].
    eexists. split; [vm_compute; reflexivity|].
    split; [reflexivity|]. split; [reflexivity|].
    intros (p & s & Hs & Hs'). cbn in Hs, Hs'.
    destruct p as [|[|p]]; cbn in Hs, Hs'.
    + injection Hs as <-. vm_compute in Hs'. discriminate.
    + injection Hs as <-. vm_compute in Hs'. discriminate.
    + discriminate.
  - eexists. eexists. eexists. split; [vm_compute; reflexivity|].
    split; [vm_compute; reflexivity|].
    split; [vm_compute; reflexivity|].
    split; [reflexivity|]. split; [vm_compute; reflexivity|].
    split; [vm_compute; reflexivity|]. split; [reflexivity|]. split; [reflexivity|].
    eexists. eexists. split; [vm_compute; reflexivity|].
    split; [vm_compute; reflexivity|]. split; [reflexivity|]. split; [reflexivity|].
    cbn. intros H. discriminate H.
Qed.

(** ** The loop over the strokes *)

Lemma strokes_loop_cons e (s : StrokePtr) ord g :
  strokes_loop e (s :: ord) g = strokes_iter e s g ≫= strokes_loop e ord.
Proof.
  unfold strokes_iter. cbn.
  destruct (Game_updateStroke e s g) as [g1|]; [|done]. cbn.
  by destruct (strokes g1 !! s).
Qed.

(** What one iteration does to the stroke set: the visited stroke is
    gone if it was released and unreleased if it stays; the others are
    as before. *)
Lemma strokes_iter_strokes e (key : StrokePtr) g g' :
  strokes_iter e key g = Some g' ->
  (forall st, strokes g' !! key = Some st -> released st = false)
  /\ (forall key', key' <> key -> strokes g' !! key' = strokes g !! key').
Proof.
  unfold strokes_iter. intros H.
  destruct (Game_updateStroke e key g) as [g1|] eqn:Hu; [|done]. cbn in H.
  assert (Hother : forall key', key' <> key -> strokes g1 !! key' = strokes g !! key').
  { intros key' Hne. revert Hu. unfold Game_updateStroke.
    destruct (strokes g !! key) as [st|]; [|done]. cbn.
    destruct (negb _).
    - intros [= <-]. cbn. by rewrite lookup_insert_ne.
    - destruct (as_Sprite _) as [[s|]|]; cbn; [| |done].
      + destruct (index_of s (sprites g)); [|done]. cbn.
        intros [= <-]. cbn. by rewrite !lookup_insert_ne.
      + intros [= <-]. cbn. by rewrite lookup_insert_ne. }
  destruct (strokes g1 !! key) as [st1|] eqn:Hk; [|done]. cbn in H.
  unfold Stroke_IsReleased in H. destruct (released st1) eqn:Hr.
  - injection H as <-. cbn. split.
    + intros st. by rewrite lookup_delete_eq.
    + intros key' Hne. rewrite lookup_delete_ne by done. by apply Hother.
  - injection H as <-. split; [|done]. intros st. rewrite Hk. congruence.
Qed.

Lemma strokes_loop_unreleased e ord g g' :
  strokes_loop e ord g = Some g' ->
  (forall key st, strokes g !! key = Some st -> key ∈ ord \/ released st = false) ->
  forall key st, strokes g' !! key = Some st -> released st = false.
Proof.
  revert g. induction ord as [|s ord IH]; intros g Hl Hcov.
  { injection Hl as <-. intros key st Hk.
    destruct (Hcov key st Hk) as [H|H]; [|done]. by apply elem_of_nil in H. }
  rewrite strokes_loop_cons in Hl.
  destruct (strokes_iter e s g) as [g1|] eqn:Hit; [|done]. cbn in Hl.
  apply (IH g1 Hl).
  destruct (strokes_iter_strokes e s g g1 Hit) as [Hs Ho].
  intros key st Hk. destruct (decide (key = s)) as [->|Hne].
  - right. by apply Hs.
  - rewrite Ho in Hk by done. destruct (Hcov key st Hk) as [H|H]; [|by right].
    apply elem_of_cons in H as [H|H]; [done|by left].
Qed.

(** An iteration on a live stroke of a well-formed state does not panic
    and leaves a well-formed state. *)
Lemma strokes_iter_inv e (key : StrokePtr) g st :
  game_inv g -> strokes g !! key = Some st ->
  exists g', strokes_iter e key g = Some g' /\ game_inv g'
    /\ sprites g' ≡ₚ sprites g
    /\ forall key', key' <> key -> strokes g' !! key' = strokes g !! key'.
Proof.
  intros Hg Hk. pose proof Hg as [Hnd Hal Hst Hch Hin].
  destruct (Hst key st Hk) as (Hr & op & Hop & Hop_in).
  assert (Hold : forall key' st', key' <> key -> strokes g !! key' = Some st' ->
            released st' = false
            /\ exists op, draggingObject st' = SpriteRef op
                 /\ forall p, op = Some p -> p ∈ sprites g).
  { intros key' st' _. apply Hst. }
  unfold strokes_iter.
  destruct (released (Stroke_Update e st)) eqn:Hr1.
  - destruct op as [p|].
    + destruct (index_of_elem p (sprites g) (Hop_in p eq_refl)) as (i & Hi & Hl & _).
      rewrite (updateStroke_release_sprite e key g st p i) by done. cbn.
      rewrite lookup_insert_eq. cbn. rewrite Hr1.
      eexists. split; [done|]. cbn. split; [|split].
      * apply (game_inv_transport g); cbn; try done.
        -- by apply remove_append_perm.
        -- apply length_alter.
        -- intros q s Hs. destruct (decide (p = q)) as [->|Hne].
           ++ eexists. rewrite list_lookup_alter_eq, Hs. split; [done|].
              apply Sprite_MoveBy_chosen.
           ++ exists s. by rewrite list_lookup_alter_ne.
        -- intros key' st'. destruct (decide (key' = key)) as [->|Hne].
           ++ by rewrite lookup_delete_eq.
           ++ rewrite lookup_delete_ne, !lookup_insert_ne by done. by apply Hold.
      * by apply remove_append_perm.
      * intros key' Hne. by rewrite lookup_delete_ne, !lookup_insert_ne.
    + rewrite (updateStroke_release_nil e key g st) by done. cbn.
      rewrite lookup_insert_eq. cbn. unfold Stroke_IsReleased. rewrite Hr1.
      eexists. split; [done|]. cbn. split; [|split].
      * apply (game_inv_transport g); cbn; try done.
        -- eauto.
        -- intros key' st'. destruct (decide (key' = key)) as [->|Hne].
           ++ by rewrite lookup_delete_eq.
           ++ rewrite lookup_delete_ne, lookup_insert_ne by done. by apply Hold.
      * done.
      * intros key' Hne. by rewrite lookup_delete_ne, lookup_insert_ne.
  - rewrite (updateStroke_live e key g st) by done. cbn.
    rewrite lookup_insert_eq. cbn. unfold Stroke_IsReleased. rewrite Hr1.
    eexists. split; [done|]. cbn. split; [|split].
    + apply (game_inv_transport g); cbn; try done.
      * eauto.
      * intros key' st'. destruct (decide (key' = key)) as [->|Hne].
        -- rewrite lookup_insert_eq. intros [= <-]. split; [done|].
           exists op. by rewrite Stroke_Update_dragging.
        -- rewrite lookup_insert_ne by done. by apply Hold.
    + done.
    + intros key' Hne. by rewrite lookup_insert_ne.
Qed.

Lemma strokes_loop_inv e ord g :
  game_inv g -> NoDup ord ->
  (forall key, key ∈ ord -> is_Some (strokes g !! key)) ->
  exists g', strokes_loop e ord g = Some g' /\ game_inv g'
    /\ sprites g' ≡ₚ sprites g.
Proof.
  revert g. induction ord as [|s ord IH]; intros g Hg Hnd Hdom.
  { exists g. split; [done|]. split; done. }
  apply NoDup_cons in Hnd as [Hs Hnd].
  destruct (Hdom s) as [st Hst]; [by apply elem_of_cons; left|].
  destruct (strokes_iter_inv e s g st Hg Hst) as (g1 & Hit & Hg1 & Hp1 & Ho).
  destruct (IH g1 Hg1 Hnd) as (g' & Hl & Hg' & Hp').
  { intros key Hkey. rewrite Ho.
    - apply Hdom. by apply elem_of_cons; right.
    - intros ->. done. }
  exists g'. rewrite strokes_loop_cons, Hit. cbn.
  split; [done|]. split; [done|]. by rewrite Hp'.
Qed.

(** ** The whole frame *)

Lemma press_sprites e src g : sprites (press e src g) = sprites g.
Proof. by destruct (press_fields e src g) as (px & py & _ & H & _). Qed.

Lemma press_heap_length e src g : length (heap (press e src g)) = length (heap g).
Proof.
  destruct (press_fields e src g) as (px & py & _ & _ & _ & -> & _). cbn zeta.
  destruct (Game_spriteAt g px py); rewrite ?length_alter; apply range_with_length.
Qed.

Lemma presses_sprites e ids g :
  sprites (foldl (fun g id => press e (TouchStrokeSource id) g) g ids) = sprites g
  /\ length (heap (foldl (fun g id => press e (TouchStrokeSource id) g) g ids))
     = length (heap g).
Proof.
  revert g. induction ids as [|id ids IH]; intros g; [done|].
  cbn [foldl]. destruct (IH (press e (TouchStrokeSource id) g)) as [-> ->].
  by rewrite press_sprites, press_heap_length.
Qed.

Lemma presses_inv e ids g :
  game_inv g -> game_inv (foldl (fun g id => press e (TouchStrokeSource id) g) g ids).
Proof.
  revert g. induction ids as [|id ids IH]; intros g Hg; [done|].
  cbn [foldl]. by apply IH, press_inv.
Qed.

Lemma on_key_sprites e key f g :
  (forall g, sprites (f g) = sprites g) -> sprites (on_key e key f g) = sprites g.
Proof. intros Hf. unfold on_key. by destruct (IsKeyJustPressed e key). Qed.

Lemma updateStroke_sprites e (key : StrokePtr) g g' :
  Game_updateStroke e key g = Some g' -> sprites g' ≡ₚ sprites g.
Proof.
  unfold Game_updateStroke.
  destruct (strokes g !! key) as [st|]; [|done]. cbn.
  destruct (negb _).
  { by intros [= <-]. }
  destruct (as_Sprite _) as [[s|]|]; cbn; [| |done].
  - pose proof (index_of_spec s (sprites g)) as Hi.
    destruct (index_of s (sprites g)) as [i|]; [|done]. cbn.
    intros [= <-]. cbn. apply remove_append_perm, Hi.
  - by intros [= <-].
Qed.

Lemma strokes_loop_sprites e ord g g' :
  strokes_loop e ord g = Some g' -> sprites g' ≡ₚ sprites g.
Proof.
  revert g. induction ord as [|s ord IH]; intros g Hl.
  { by injection Hl as <-. }
  cbn in Hl. destruct (Game_updateStroke e s g) as [g1|] eqn:Hu; [|done].
  cbn in Hl. destruct (strokes g1 !! s) as [st|]; [|done]. cbn in Hl.
  apply IH in Hl. rewrite <- (updateStroke_sprites e s g g1 Hu), Hl.
  by destruct (Stroke_IsReleased st).
Qed.

Lemma dragging_sprites_Some (l : list Stroke) :
  Forall (fun st => exists op, draggingObject st = SpriteRef op) l ->
  is_Some (dragging_sprites l).
Proof.
  induction 1 as [|st l [op Hop] _ [d Hd]]; cbn; [eauto|].
  unfold Stroke_DraggingObject. rewrite Hop, Hd. cbn. eauto.
Qed.

Section Frames.

Variables negativeImage neutralImage positiveImage : Image.

Local Abbreviation charge_image' := (charge_image negativeImage neutralImage positiveImage).
Local Abbreviation draw' := (draw negativeImage neutralImage positiveImage).
Local Abbreviation Game_input' := (Game_input neutralImage).
Local Abbreviation Game_update' := (Game_update negativeImage neutralImage positiveImage).
Local Abbreviation init' := (init neutralImage).
Local Abbreviation reachable' := (reachable negativeImage neutralImage positiveImage).

Lemma charge_image_chosen s : chosen (charge_image' s) = chosen s.
Proof.
  unfold charge_image. by repeat case_match.
Qed.

Lemma draw_fields g g' :
  draw' g = Some g' ->
  exists d : gset nat,
    heap g' = range_with (fun s a => if decide (s ∈ d) then a else charge_image' a)
                                 (sprites g) (heap g)
    /\ strokes g' = strokes g /\ sprites g' = sprites g
    /\ ChosenSprite g' = ChosenSprite g.
Proof.
  unfold draw.
  destruct (dragging_sprites _) as [d|]; [|done]. cbn. intros [= <-].
  exists d. cbn. split; [|done].
  generalize (heap g). induction (sprites g) as [|s l IH]; intros h; [done|].
  rewrite range_with_cons. cbn. rewrite IH. case_decide; [|done].
  by rewrite list_alter_id.
Qed.

Lemma draw_inv g :
  game_inv g -> exists g', draw' g = Some g' /\ game_inv g'.
Proof.
  intros Hg.
  destruct (dragging_sprites_Some (map_to_list (strokes g)).*2) as [d Hd].
  { apply Forall_forall. intros st Hst.
    apply list_elem_of_fmap in Hst as ([key st'] & -> & Hst).
    apply elem_of_map_to_list in Hst.
    destruct (inv_strokes g Hg key st' Hst) as (_ & op & Hop & _). eauto. }
  assert (is_Some (draw' g)) as [g' Hg'].
  { unfold draw. rewrite Hd. cbn. eauto. }
  exists g'. split; [done|].
  destruct (draw_fields g g' Hg') as (d' & Hh & Hs & Hl & Hc).
  apply (game_inv_transport g); try done.
  - by rewrite Hl.
  - rewrite Hh. apply range_with_length.
  - intros p s Hp. rewrite Hh.
    destruct (range_with_rel (fun a b => chosen b = chosen a)
                (fun s a => if decide (s ∈ d') then a else charge_image' a)
                (sprites g) (heap g) p s) as (s' & Hs' & Hch); try done.
    + intros a b c. congruence.
    + intros q a. case_decide; [done|]. apply charge_image_chosen.
    + eauto.
  - intros key st. rewrite Hs. apply (inv_strokes g Hg).
Qed.

(** The input phase never panics; the slice grows by the new sprite
    exactly when the "add" key went down. *)
Lemma Game_input_sprites e g :
  exists g1, Game_input' e g = Some g1
    /\ sprites g1
       = sprites g ++ (if IsKeyJustPressed e KeyA then [length (heap g)] else []).
Proof.
  unfold Game_input.
  set (g0 := if IsMouseButtonJustPressed e then press e MouseStrokeSource g else g).
  assert (H0 : sprites g0 = sprites g /\ length (heap g0) = length (heap g)).
  { unfold g0. destruct (IsMouseButtonJustPressed e); [|done].
    by rewrite press_sprites, press_heap_length. }
  destruct (presses_sprites e (JustPressedTouchIDs e) g0) as [H1 H2].
  set (g1 := foldl _ g0 _) in *.
  destruct H0 as [H0 H0']. rewrite H0 in H1. rewrite H0' in H2.
  destruct (IsKeyJustPressed e KeyA).
  - destruct (add_sprite_Some neutralImage e g1) as (px & py & ->). cbn.
    eexists. split; [done|].
    rewrite !on_key_sprites by done. cbn. by rewrite H1, H2.
  - cbn. eexists. split; [done|].
    rewrite !on_key_sprites by done. by rewrite app_nil_r.
Qed.

Lemma Game_input_inv e g g1 :
  Game_input' e g = Some g1 -> game_inv g -> game_inv g1.
Proof.
  unfold Game_input. intros H Hg.
  set (g0 := if IsMouseButtonJustPressed e then press e MouseStrokeSource g else g) in *.
  assert (H0 : game_inv g0).
  { unfold g0. destruct (IsMouseButtonJustPressed e); [by apply press_inv|done]. }
  apply (presses_inv e (JustPressedTouchIDs e)) in H0.
  set (g2 := foldl _ g0 _) in *.
  assert (exists g3, (if IsKeyJustPressed e KeyA then add_sprite neutralImage e g2
                      else Some g2) = Some g3 /\ game_inv g3) as (g3 & H3 & Hg3).
  { destruct (IsKeyJustPressed e KeyA); [|eauto].
    destruct (add_sprite neutralImage e g2) as [g3|] eqn:Ha.
    - exists g3. split; [done|]. by apply (add_sprite_inv neutralImage e g2).
    - destruct (add_sprite_Some neutralImage e g2) as (px & py & Hs). congruence. }
  rewrite H3 in H. cbn in H. injection H as <-.
  apply on_key_inv; [apply nudge_left_inv|].
  apply on_key_inv; [apply nudge_right_inv|].
  apply on_key_inv; [apply nudge_down_inv|].
  apply on_key_inv; [apply nudge_up_inv|].
  apply on_key_inv; [apply charge_down_inv|].
  apply on_key_inv; [apply charge_up_inv|]. done.
Qed.

(** From a well-formed state a frame never panics, whatever the engine
    answers, and leaves a well-formed state. *)
Lemma Game_update_inv e g :
  game_inv g -> fair_order e ->
  exists g', Game_update' e g = Some g' /\ game_inv g'.
Proof.
  intros Hg He. unfold Game_update.
  destruct (Game_input_sprites e g) as (g1 & Hi & _).
  rewrite Hi. cbn.
  pose proof (Game_input_inv e g g1 Hi Hg) as Hg1.
  destruct (strokes_loop_inv e (range_strokes e g1) g1 Hg1) as (g2 & Hl & Hg2 & _).
  - unfold range_strokes. rewrite (He _). apply NoDup_fst_map_to_list.
  - intros key. unfold range_strokes. rewrite (He _). intros Hk.
    apply list_elem_of_fmap in Hk as ([key' st] & -> & Hk).
    apply elem_of_map_to_list in Hk. cbn. eauto.
  - rewrite Hl. cbn. destruct (IsDrawingSkipped e); [eauto|].
    by apply draw_inv.
Qed.

Lemma init_inv r0x r0y r1x r1y g : init' r0x r0y r1x r1y = Some g -> game_inv g.
Proof.
  unfold init, Size.
  destruct (rand_Intn r0x _); [|done]. cbn.
  destruct (rand_Intn r0y _); [|done]. cbn.
  destruct (rand_Intn r1x _); [|done]. cbn.
  destruct (rand_Intn r1y _); [|done]. cbn.
  intros [= <-]. split; cbn.
  - apply NoDup_cons. split; [|apply NoDup_singleton].
    intros H. apply list_elem_of_singleton in H. done.
  - intros p Hp. apply elem_of_cons in Hp as [->|Hp]; [lia|].
    apply list_elem_of_singleton in Hp as ->. lia.
  - intros key st. by rewrite lookup_empty.
  - intros p Hp. unfold is_chosen. cbn. split; [|done].
    intros (s & Hs & Hc).
    apply elem_of_cons in Hp as [->|Hp].
    + cbn in Hs. by injection Hs as <-.
    + apply list_elem_of_singleton in Hp as ->. cbn in Hs. by injection Hs as <-.
  - done.
Qed.

Lemma reachable_inv g : reachable' g -> game_inv g.
Proof.
  induction 1 as [r0x r0y r1x r1y g Hi|g g' _ IH (e & He & Hu)].
  - by apply (init_inv r0x r0y r1x r1y).
  - destruct (Game_update_inv e g IH He) as (g2 & Hu' & Hg2).
    congruence.
Qed.

Lemma Game_update_sprites e g g' :
  Game_update' e g = Some g' ->
  sprites g'
  ≡ₚ sprites g ++ (if IsKeyJustPressed e KeyA then [length (heap g)] else []).
Proof.
  unfold Game_update. intros H.
  destruct (Game_input_sprites e g) as (g1 & Hi & <-).
  rewrite Hi in H. cbn in H.
  destruct (strokes_loop e (range_strokes e g1) g1) as [g2|] eqn:Hl; [|done].
  cbn in H. apply strokes_loop_sprites in Hl. rewrite <- Hl.
  destruct (IsDrawingSkipped e).
  - by injection H as <-.
  - apply draw_fields in H as (d & _ & _ & -> & _). done.
Qed.

Lemma Game_update_unreleased e g g' :
  fair_order e -> Game_update' e g = Some g' ->
  forall key st, strokes g' !! key = Some st -> released st = false.
Proof.
  unfold Game_update. intros He H.
  destruct (Game_input' e g) as [g1|]; [|done]. cbn in H.
  destruct (strokes_loop e (range_strokes e g1) g1) as [g2|] eqn:Hl; [|done].
  cbn in H.
  assert (Hg2 : forall key st, strokes g2 !! key = Some st -> released st = false).
  { apply (strokes_loop_unreleased e (range_strokes e g1) g1 g2 Hl).
    intros key st Hk. left. unfold range_strokes. rewrite (He _).
    apply list_elem_of_fmap. exists (key, st). split; [done|].
    by apply elem_of_map_to_list. }
  destruct (IsDrawingSkipped e).
  - by injection H as <-.
  - apply draw_fields in H as (d & _ & -> & _). done.
Qed.

Lemma reachable_play es g g' :
  Forall fair_order es -> reachable' g ->
  foldl (fun g e => g ≫= Game_update' e) (Some g) es = Some g' ->
  reachable' g'.
Proof.
  intros Hes. revert g. induction Hes as [|e es He _ IH]; intros g Hg Hp.
  { by injection Hp as <-. }
  cbn [foldl] in Hp. cbn in Hp.
  destruct (Game_update' e g) as [g1|] eqn:Hu.
  - apply (IH g1); [|done]. apply (reachable_step _ _ _ g); [done|].
    exists e. by split.
  - exfalso. clear -Hp. induction es as [|e' es IH']; [done|]. by apply IH'.
Qed.

End Frames.

Lemma reachable_scene es g :
  Forall fair_order es -> play es scene0 = Some g ->
  reachable box40 box40 box40 g.
Proof.
  intros Hes Hp. unfold play in Hp.
  destruct scene0 as [g0|] eqn:H0; [|done].
  apply (reachable_play box40 box40 box40 es g0 g Hes); [|done].
  by apply (reachable_init _ _ _ 100 100 300 200).
Qed.

Lemma fair_idle pos : fair_order (idle_at pos).
Proof. by intros l. Qed.
Lemma fair_mouse_down pos : fair_order (mouse_down_at pos).
Proof. by intros l. Qed.
Lemma fair_mouse_up pos : fair_order (mouse_up_at pos).
Proof. by intros l. Qed.
Lemma fair_key_down key r1 r2 : fair_order (key_down key r1 r2).
Proof. by intros l. Qed.

Create HintDb scene.
#[local] Hint Resolve fair_idle fair_mouse_down fair_mouse_up fair_key_down : scene.

(** ** The properties of the frame *)

(** C4.  In every reachable state at most one position of the slice
    holds a sprite with the chosen flag, a sprite of the slice has the
    flag exactly when [ChosenSprite] points to it, and [ChosenSprite] is
    nil exactly when no sprite of the slice has the flag. *)
Theorem at_most_one_chosen (negativeImage neutralImage positiveImage : Image)
    (g : Game) :
  reachable negativeImage neutralImage positiveImage g ->
  (forall i j p q, sprites g !! i = Some p -> sprites g !! j = Some q ->
                   is_chosen g p -> is_chosen g q -> i = j)
  /\ (forall p, p ∈ sprites g -> (is_chosen g p <-> ChosenSprite g = Some p))
  /\ (forall p, ChosenSprite g = Some p -> p ∈ sprites g /\ is_chosen g p)
  /\ (ChosenSprite g = None <-> forall p, p ∈ sprites g -> ~ is_chosen g p).
Proof.
  intros Hr. apply reachable_inv in Hr as [Hnd Hal Hst Hch Hin].
  assert (Hel : forall i p, sprites g !! i = Some p -> p ∈ sprites g).
  { intros i p Hi. apply list_elem_of_lookup. eauto. }
  split; [|split; [|split]].
  - intros i j p q Hi Hj Hp Hq.
    apply (Hch p (Hel i p Hi)) in Hp. apply (Hch q (Hel j q Hj)) in Hq.
    assert (p = q) as -> by congruence.
    by apply (NoDup_lookup (sprites g) i j q).
  - done.
  - intros p Hp. split; [by apply Hin|]. apply Hch; [by apply Hin|done].
  - split.
    + intros Hn p Hp Hc. apply (Hch p Hp) in Hc. congruence.
    + intros Hn. destruct (ChosenSprite g) as [p|] eqn:Hc; [|done].
      exfalso. apply (Hn p (Hin p eq_refl)). apply Hch; [by apply Hin|done].
Qed.

Lemma at_most_one_chosen_witness :
  exists g, scene_drag_Q0 = Some g
    /\ reachable box40 box40 box40 g
    /\ is_chosen g 0%nat
    /\ (forall i j p q, sprites g !! i = Some p -> sprites g !! j = Some q ->
                        is_chosen g p -> is_chosen g q -> i = j)
    /\ (forall p, p ∈ sprites g -> (is_chosen g p <-> ChosenSprite g = Some p))
    /\ (forall p, ChosenSprite g = Some p -> p ∈ sprites g /\ is_chosen g p)
    /\ (ChosenSprite g = None <-> forall p, p ∈ sprites g -> ~ is_chosen g p).
Proof.
  eexists. split; [vm_compute; reflexivity|].
  assert (Hr : reachable box40 box40 box40
                 (the scene_drag_Q0)).
  { apply (reachable_scene [mouse_down_at (110, 110); idle_at (140, 150)]).
    - repeat constructor; auto with scene.
    - vm_compute. reflexivity. }
  vm_compute in Hr.
  split; [exact Hr|]. split.
  - eexists. split; [vm_compute; reflexivity|reflexivity].
  - exact (at_most_one_chosen box40 box40 box40 _ Hr).
Defined.

(** C6.  A frame destroys no sprite: every pointer of the slice is
    still in it afterwards, and the slice grows by one exactly when the
    "add" key went down and keeps its length otherwise; and from a
    reachable state the frame does complete. *)
Theorem sprites_never_destroyed (negativeImage neutralImage positiveImage : Image)
    (e : Engine) (g : Game) :
  (forall g', Game_update negativeImage neutralImage positiveImage e g = Some g' ->
     (forall p, p ∈ sprites g -> p ∈ sprites g')
     /\ length (sprites g')
        = (length (sprites g) + (if IsKeyJustPressed e KeyA then 1 else 0))%nat)
  /\ (reachable negativeImage neutralImage positiveImage g -> fair_order e ->
      exists g', Game_update negativeImage neutralImage positiveImage e g = Some g').
Proof.
  split.
  - intros g' Hu. apply Game_update_sprites in Hu. split.
    + intros p Hp. rewrite Hu. apply elem_of_app. by left.
    + rewrite Hu, length_app. by destruct (IsKeyJustPressed e KeyA).
  - intros Hr He. apply reachable_inv in Hr.
    destruct (Game_update_inv negativeImage neutralImage positiveImage e g Hr He)
      as (g' & Hu & _).
    eauto.
Qed.

Lemma sprites_never_destroyed_witness :
  exists g, scene_drag_Q0 = Some g
    /\ exists g', Game_update box40 box40 box40 (key_down KeyA 900 700) g = Some g'
         /\ (forall p, p ∈ sprites g -> p ∈ sprites g')
         /\ length (sprites g') = (length (sprites g) + 1)%nat.
Proof.
  eexists. split; [vm_compute; reflexivity|].
  eexists. split; [vm_compute; reflexivity|].
  refine (proj1 (sprites_never_destroyed box40 box40 box40
                   (key_down KeyA 900 700) _) _ _).
  vm_compute. reflexivity.
Defined.

(** C7.  [Update] changes no field of a released stroke, and after a
    frame no stroke of the set is released: the loop has removed every
    stroke it saw released. *)
Theorem released_stroke_is_discarded :
  (forall (e : Engine) (st : Stroke),
      released st = true -> Stroke_Update e st = st)
  /\ (forall (negativeImage neutralImage positiveImage : Image)
             (e : Engine) (g g' : Game),
        fair_order e ->
        Game_update negativeImage neutralImage positiveImage e g = Some g' ->
        forall key st, strokes g' !! key = Some st -> released st = false)
  /\ (forall (e : Engine) (key : StrokePtr) (g g' : Game),
        strokes_iter e key g = Some g' ->
        forall st, strokes g' !! key = Some st -> released st = false).
Proof.
  split; [|split].
  - intros e st. apply Stroke_Update_released_fixed.
  - intros n u p e g g'. apply Game_update_unreleased.
  - intros e key g g' H. by apply (strokes_iter_strokes e key g g').
Qed.

Lemma released_stroke_is_discarded_witness :
  let g := the scene_drag_Q0 in
  let g' := the (Game_update box40 box40 box40 (mouse_up_at (140, 150)) g) in
  is_Some (strokes g !! 0%nat)
  /\ strokes g' = ∅
  /\ forall key st, strokes g' !! key = Some st -> released st = false.
Proof.
  intros g g'.
  split; [eexists; vm_compute; reflexivity|].
  split; [vm_compute; reflexivity|].
  refine (proj1 (proj2 released_stroke_is_discarded) box40 box40 box40
            (mouse_up_at (140, 150)) g g' (fair_mouse_up _) _).
  vm_compute. reflexivity.
Defined.

(** ** Key handlers *)

Lemma range_when_chosen_unchosen f l h (p : SpritePtr) s :
  h !! p = Some s -> chosen s = false ->
  range_sprites (when_chosen f) l h !! p = Some s.
Proof.
  intros Hs Hc. rewrite range_sprites_with.
  destruct (range_with_rel (fun a b => chosen a = false -> b = a)
              (fun _ => when_chosen f) l h p s) as (s' & Hs' & HR); try done.
  - intros a b c Hab Hbc Ha. rewrite <- (Hab Ha). apply Hbc. by rewrite (Hab Ha).
  - intros _ a Ha. unfold when_chosen. by rewrite Ha.
  - by rewrite Hs', (HR Hc).
Qed.

Lemma range_when_chosen_chosen f l h (p : SpritePtr) s :
  NoDup l -> p ∈ l -> h !! p = Some s -> chosen s = true ->
  range_sprites (when_chosen f) l h !! p = Some (f s).
Proof.
  intros Hnd Hp Hs Hc. rewrite range_sprites_with, range_with_in, Hs by done.
  cbn. unfold when_chosen. by rewrite Hc.
Qed.


(** C10.  The handlers of the four arrow keys leave every sprite without
    the chosen flag as it is and shift a chosen sprite of the slice by
    [screenHeight / 10 = 54] or [screenWidth / 10 = 80] in Go's [int]
    arithmetic, with no clamping: states are reachable in which a
    coordinate is negative, or beyond the bound that [MoveBy] keeps. *)
Theorem arrow_nudge_unclamped :
  (forall (g : Game) (p : SpritePtr) (s : Sprite),
      heap g !! p = Some s ->
      (chosen s = false ->
         heap (nudge_up g) !! p = Some s /\ heap (nudge_down g) !! p = Some s
         /\ heap (nudge_right g) !! p = Some s /\ heap (nudge_left g) !! p = Some s)
      /\ (chosen s = true -> NoDup (sprites g) -> p ∈ sprites g ->
          heap (nudge_up g) !! p
          = Some (set_y (int_sub (y s) (screenHeight / 10)) s)
          /\ heap (nudge_down g) !! p
             = Some (set_y (int_add (y s) (screenHeight / 10)) s)
          /\ heap (nudge_right g) !! p
             = Some (set_x (int_add (x s) (screenWidth / 10)) s)
          /\ heap (nudge_left g) !! p
             = Some (set_x (int_sub (x s) (screenWidth / 10)) s)))
  /\ (screenWidth / 10 = 80 /\ screenHeight / 10 = 54)
  /\ (exists g s, reachable box40 box40 box40 g
        /\ heap g !! 0%nat = Some s /\ x s < 0)
  /\ (exists g s, reachable box40 box40 box40 g
        /\ heap g !! 0%nat = Some s /\ screenHeight - img_h (image s) < y s).
Proof.
  split; [|split; [done|split]].
  - intros g p s Hs. split.
    + intros Hc. repeat split; by apply range_when_chosen_unchosen.
    + intros Hc Hnd Hp. repeat split.
      * apply (range_when_chosen_chosen
                 (fun s => set_y (int_sub (y s) (screenHeight / 10)) s)); done.
      * apply (range_when_chosen_chosen
                 (fun s => set_y (int_add (y s) (screenHeight / 10)) s)); done.
      * apply (range_when_chosen_chosen
                 (fun s => set_x (int_add (x s) (screenWidth / 10)) s)); done.
      * apply (range_when_chosen_chosen
                 (fun s => set_x (int_sub (x s) (screenWidth / 10)) s)); done.
  - assert (Hr : reachable box40 box40 box40
                   (the scene_left)).
    { apply (reachable_scene
               [mouse_down_at (110, 110); mouse_up_at (110, 110);
                key_down KeyLeft 0 0; key_down KeyLeft 0 0]).
      - repeat constructor; auto with scene.
      - vm_compute. reflexivity. }
    eexists. eexists. split; [exact Hr|]. split; [vm_compute; reflexivity|done].
  - assert (Hr : reachable box40 box40 box40
                   (the scene_down)).
    { apply (reachable_scene
               (mouse_down_at (110, 110) :: mouse_up_at (110, 110)
                  :: replicate 8 (key_down KeyDown 0 0))).
      - repeat constructor; auto with scene.
      - vm_compute. reflexivity. }
    eexists. eexists. split; [exact Hr|]. split; [vm_compute; reflexivity|done].
Qed.

(** ** Physics overlay *)

(** A division by (positive) zero is never finite: it is an infinity or
    not a number. *)
Lemma div_zero_not_finite (a : float) : is_finite (a / 0)%float = false.
Proof.
  assert (H : Prim2SF (a / 0)%float = S754_nan
              \/ exists sg, Prim2SF (a / 0)%float = S754_infinity sg).
  { rewrite div_spec. change (Prim2SF 0%float) with (S754_zero false).
    destruct (Prim2SF a) as [sg|sg| |sg m ex]; cbn; eauto. }
  unfold is_finite, is_nan, is_infinity.
  rewrite !FloatAxioms.eqb_spec, abs_spec.
  destruct H as [->|[sg ->]]; [done|].
  change (Prim2SF infinity) with (S754_infinity false).
  by destruct sg.
Qed.

Lemma distance_zero (s1 s2 : Sprite) :
  x s1 = x s2 -> y s1 = y s2 -> distance s1 s2 = 0%float.
Proof.
  intros Hx Hy. unfold distance. rewrite Hx, Hy, !int_sub_diag. reflexivity.
Qed.

(** C8.  The results of [distance], [force], [angle] and [midPoint] are
    functions of the positions and charges of their two arguments alone,
    and [field] of its two numbers; and for two sprites at the same
    position [distance] is 0 and [force] is the quotient of
    [k * (q1 * q2)] by zero, which is an infinity or not a number: no
    branch guards the division. *)
Theorem physics_stateless_zero_distance_unguarded :
  (forall (math_Atan2 : float -> float -> float) (s1 s2 t1 t2 : Sprite),
      x s1 = x t1 -> y s1 = y t1 -> charge s1 = charge t1 ->
      x s2 = x t2 -> y s2 = y t2 -> charge s2 = charge t2 ->
      distance s1 s2 = distance t1 t2
      /\ force s1 s2 = force t1 t2
      /\ field (charge s1) (distance s1 s2) = field (charge t1) (distance t1 t2)
      /\ angle math_Atan2 s1 s2 = angle math_Atan2 t1 t2
      /\ midPoint s1 s2 = midPoint t1 t2)
  /\ (forall s1 s2 : Sprite,
        x s1 = x s2 -> y s1 = y s2 ->
        distance s1 s2 = 0%float
        /\ force s1 s2 = (k * (charge s1 * charge s2) / 0)%float
        /\ is_finite (force s1 s2) = false).
Proof.
  split.
  - intros atan2 s1 s2 t1 t2 Hx1 Hy1 Hc1 Hx2 Hy2 Hc2.
    unfold force, field, angle, midPoint, distance.
    by rewrite Hx1, Hy1, Hc1, Hx2, Hy2, Hc2.
  - intros s1 s2 Hx Hy.
    assert (Hf : force s1 s2 = (k * (charge s1 * charge s2) / 0)%float).
    { unfold force. by rewrite (distance_zero s1 s2 Hx Hy). }
    split; [by apply distance_zero|]. split; [done|].
    rewrite Hf. apply div_zero_not_finite.
Qed.

Lemma physics_stateless_zero_distance_unguarded_witness :
  let q0 := mkSprite "Q0" box40 100 100 charge_step true in
  let q1 := mkSprite "Q1" box40 100 100 (- charge_step)%float false in
  distance q0 q1 = 0%float
  /\ force q0 q1 = neg_infinity
  /\ force q0 (set_charge 0%float q1) = nan
  /\ is_finite (force q0 q1) = false.
Proof.
  intros q0 q1.
  pose proof (proj2 physics_stateless_zero_distance_unguarded q0 q1 eq_refl eq_refl)
    as (Hd & Hf & Hn).
  split; [exact Hd|]. split; [vm_compute; reflexivity|].
  split; [vm_compute; reflexivity|exact Hn].
Defined.

(** ** Instances *)

Lemma PositionDiff_current_minus_origin_witness :
  let s := mkStroke MouseStrokeSource 110 110 140 150 false nil_iface in
  Stroke_PositionDiff s = (140 - 110, 150 - 110).
Proof.
  intros s.
  apply (proj2 (proj1 PositionDiff_current_minus_origin s)).
  - unfold is_int, min_int, max_int. cbn. lia.
  - unfold is_int, min_int, max_int. cbn. lia.
Defined.

Lemma MoveBy_within_screen_witness :
  let s := mkSprite "Q0" box40 100 100 0%float false in
  img_w (image s) <= screenWidth /\ img_h (image s) <= screenHeight
  /\ x (Sprite_MoveBy 1000 (-1000) s) = 760 /\ y (Sprite_MoveBy 1000 (-1000) s) = 0
  /\ 0 <= x (Sprite_MoveBy 1000 (-1000) s) <= screenWidth - img_w (image s)
  /\ 0 <= y (Sprite_MoveBy 1000 (-1000) s) <= screenHeight - img_h (image s).
Proof.
  intros s.
  assert (Hw : img_w (image s) <= screenWidth) by (vm_compute; discriminate).
  assert (Hh : img_h (image s) <= screenHeight) by (vm_compute; discriminate).
  split; [exact Hw|]. split; [exact Hh|].
  split; [reflexivity|]. split; [reflexivity|].
  exact (MoveBy_within_screen s 1000 (-1000) Hw Hh).
Defined.

Lemma scene_pick_Q0_nodup : NoDup (sprites (the scene_pick_Q0)).
Proof.
  change (NoDup [1%nat; 0%nat]). apply NoDup_cons. split; [|apply NoDup_singleton].
  intros H. apply list_elem_of_singleton in H. discriminate.
Qed.

Lemma scene_pick_Q0_elem : 0%nat ∈ sprites (the scene_pick_Q0).
Proof. change (0%nat ∈ [1%nat; 0%nat]). apply elem_of_cons. right. apply elem_of_cons. by left. Qed.


Lemma arrow_nudge_unclamped_witness :
  let g := the scene_pick_Q0 in
  let q0 := mkSprite "Q0" box40 100 100 0%float true in
  heap g !! 0%nat = Some q0
  /\ heap (nudge_left g) !! 0%nat = Some (set_x (int_sub 100 (screenWidth / 10)) q0)
  /\ int_sub 100 (screenWidth / 10) = 20.
Proof.
  intros g q0.
  assert (H0 : heap g !! 0%nat = Some q0) by (vm_compute; reflexivity).
  split; [exact H0|]. split; [|reflexivity].
  exact (proj2 (proj2 (proj2
           (proj2 (proj1 arrow_nudge_unclamped g 0%nat q0 H0) eq_refl
              scene_pick_Q0_nodup scene_pick_Q0_elem)))).
Defined.

(** * Further properties of the code *)

(** ** [MoveBy] *)

Lemma Sprite_MoveBy_on_screen (dx dy : Z) (s : Sprite) :
  img_w (image s) <= screenWidth -> img_h (image s) <= screenHeight ->
  on_screen (Sprite_MoveBy dx dy s).
Proof.
  intros Hw Hh. destruct (screen_sub_exact (image s)) as [Ew Eh].
  pose proof (img_w_bounds (image s)) as Bw.
  pose proof (img_h_bounds (image s)) as Bh.
  unfold on_screen. rewrite (Sprite_MoveBy_fields dx dy s) at 2 4. cbn [image].
  unfold Sprite_MoveBy, Size. rewrite Ew, Eh. cbn.
  change screenWidth with 800 in *. change screenHeight with 540 in *.
  repeat (case_match; cbn in * ); lia.
Qed.

(** X1.  When the target position lies inside the screen, [MoveBy]
    moves the sprite by exactly the displacement: nothing is clamped. *)
Theorem MoveBy_exact_inside (dx dy : Z) (s : Sprite) :
  0 <= x s + dx <= screenWidth - img_w (image s) ->
  0 <= y s + dy <= screenHeight - img_h (image s) ->
  Sprite_MoveBy dx dy s
  = mkSprite (name s) (image s) (x s + dx) (y s + dy) (charge s) (chosen s).
Proof.
  intros Hx Hy. rewrite (Sprite_MoveBy_fields dx dy s).
  by destruct (Sprite_MoveBy_inside dx dy s Hx Hy) as [-> ->].
Qed.

Lemma MoveBy_exact_inside_witness :
  let s := mkSprite "Q0" box40 100 100 0%float true in
  Sprite_MoveBy 30 (-40) s = mkSprite "Q0" box40 130 60 0%float true.
Proof.
  intros s. apply (MoveBy_exact_inside 30 (-40) s); vm_compute; split; discriminate.
Defined.

(** [MoveBy] only writes the position. *)
Lemma MoveBy_keeps_other_fields (dx dy : Z) (s : Sprite) :
  name (Sprite_MoveBy dx dy s) = name s
  /\ image (Sprite_MoveBy dx dy s) = image s
  /\ charge (Sprite_MoveBy dx dy s) = charge s
  /\ chosen (Sprite_MoveBy dx dy s) = chosen s.
Proof. by rewrite (Sprite_MoveBy_fields dx dy s). Qed.

(** X2.  With an image wider (taller) than the screen the last clamp
    wins: whatever the displacement, the sprite ends at the negative
    coordinate [screenWidth - w] ([screenHeight - h]), not at 0. *)
Theorem MoveBy_oversize_image (dx dy : Z) (s : Sprite) :
  (screenWidth < img_w (image s) ->
   x (Sprite_MoveBy dx dy s) = screenWidth - img_w (image s))
  /\ (screenHeight < img_h (image s) ->
      y (Sprite_MoveBy dx dy s) = screenHeight - img_h (image s)).
Proof.
  destruct (screen_sub_exact (image s)) as [Ew Eh].
  unfold Sprite_MoveBy, Size. rewrite Ew, Eh. cbn.
  split; intros H; repeat (case_match; cbn in * ); lia.
Qed.

Lemma MoveBy_oversize_image_witness :
  let s := mkSprite "Q0" box900 10 10 0%float false in
  x (Sprite_MoveBy 5 5 s) = -100 /\ y (Sprite_MoveBy 5 5 s) = -60.
Proof.
  intros s. split.
  - apply (proj1 (MoveBy_oversize_image 5 5 s)). vm_compute. reflexivity.
  - apply (proj2 (MoveBy_oversize_image 5 5 s)). vm_compute. reflexivity.
Defined.

(** X3.  Clamping is a projection: once [MoveBy] has placed a sprite
    whose image fits the screen, a further [MoveBy] by (0, 0) changes
    nothing. *)
Theorem MoveBy_zero_after_MoveBy (dx dy : Z) (s : Sprite) :
  img_w (image s) <= screenWidth -> img_h (image s) <= screenHeight ->
  Sprite_MoveBy 0 0 (Sprite_MoveBy dx dy s) = Sprite_MoveBy dx dy s.
Proof.
  intros Hw Hh.
  destruct (Sprite_MoveBy_on_screen dx dy s Hw Hh) as [Hx Hy].
  set (s' := Sprite_MoveBy dx dy s) in *.
  rewrite (Sprite_MoveBy_fields 0 0 s').
  destruct (Sprite_MoveBy_inside 0 0 s') as [-> ->]; [lia..|].
  rewrite !Z.add_0_r. by destruct s'.
Qed.

Lemma MoveBy_zero_after_MoveBy_witness :
  let s := mkSprite "Q0" box40 100 100 0%float true in
  Sprite_MoveBy 0 0 (Sprite_MoveBy 1000 (-1000) s) = Sprite_MoveBy 1000 (-1000) s.
Proof.
  intros s. apply (MoveBy_zero_after_MoveBy 1000 (-1000) s); vm_compute; discriminate.
Defined.

(** ** Strokes over several frames *)

Lemma Stroke_frames_snoc (es : list Engine) (e : Engine) (s : Stroke) :
  Stroke_frames (es ++ [e]) s = Stroke_Update e (Stroke_frames es s).
Proof. unfold Stroke_frames. by rewrite foldl_app. Qed.

Lemma Stroke_Update_source (e : Engine) (s : Stroke) :
  source (Stroke_Update e s) = source s.
Proof.
  unfold Stroke_Update. destruct (released s); [done|].
  destruct (source_IsJustReleased e (source s)); [done|].
  by destruct (source_Position e (source s)).
Qed.

Lemma Stroke_Update_held (e : Engine) (s : Stroke) :
  released s = false -> source_IsJustReleased e (source s) = false ->
  Stroke_Update e s
  = mkStroke (source s) (initX s) (initY s)
             (source_Position e (source s)).1 (source_Position e (source s)).2
             false (draggingObject s).
Proof.
  intros Hr Hj. unfold Stroke_Update. rewrite Hr, Hj.
  by destruct (source_Position e (source s)).
Qed.

Lemma Stroke_frames_held (es : list Engine) (s : Stroke) :
  released s = false ->
  Forall (fun e => source_IsJustReleased e (source s) = false) es ->
  released (Stroke_frames es s) = false /\ source (Stroke_frames es s) = source s.
Proof.
  intros Hr Hes. revert s Hr Hes.
  induction es as [|e es IH]; intros s Hr Hes; [done|].
  apply Forall_cons in Hes as [He Hes].
  change (Stroke_frames (e :: es) s) with (Stroke_frames es (Stroke_Update e s)).
  destruct (IH (Stroke_Update e s)) as [H1 H2].
  - by rewrite Stroke_Update_held.
  - by rewrite Stroke_Update_source.
  - split; [done|]. by rewrite H2, Stroke_Update_source.
Qed.

Lemma Stroke_frames_released (es : list Engine) (s : Stroke) :
  released s = true -> Stroke_frames es s = s.
Proof.
  intros Hr. induction es as [|e es IH]; [done|].
  change (Stroke_frames (e :: es) s) with (Stroke_frames es (Stroke_Update e s)).
  by rewrite Stroke_Update_released_fixed.
Qed.

(** X4.  While no frame reports the release, a stroke stays unreleased
    and its position is the one polled in the latest frame, its origin
    the one polled when it was created. *)
Theorem Stroke_held_tracks_pointer
    (e0 : Engine) (src : StrokeSource) (es : list Engine) (e : Engine) :
  Forall (fun e' => source_IsJustReleased e' src = false) (es ++ [e]) ->
  let s := Stroke_frames (es ++ [e]) (NewStroke e0 src) in
  released s = false
  /\ Stroke_Position s = source_Position e src
  /\ (initX s, initY s) = source_Position e0 src.
Proof.
  intros Hall s.
  assert (Hsrc : source (NewStroke e0 src) = src).
  { unfold NewStroke. by destruct (source_Position e0 src). }
  destruct (NewStroke_fields e0 src) as (Hr0 & Hi0 & _).
  apply Forall_app in Hall as [Hes He]. apply Forall_cons in He as [He _].
  destruct (Stroke_frames_held es (NewStroke e0 src) Hr0) as [Hr Hs].
  { by rewrite Hsrc. }
  destruct (Stroke_frames_init (es ++ [e]) (NewStroke e0 src)) as [Hx Hy].
  fold s in Hx, Hy. rewrite Hx, Hy. split; [|split; [|done]].
  - unfold s. rewrite Stroke_frames_snoc, Stroke_Update_held; [done|done|].
    by rewrite Hs, Hsrc.
  - unfold s. rewrite Stroke_frames_snoc, Stroke_Update_held; [|done|].
    + unfold Stroke_Position. cbn. rewrite Hs, Hsrc.
      by destruct (source_Position e src).
    + by rewrite Hs, Hsrc.
Qed.

Lemma Stroke_held_tracks_pointer_witness :
  let s := Stroke_frames ([idle_at (120, 130)] ++ [idle_at (140, 150)])
                         (NewStroke (mouse_down_at (110, 110)) MouseStrokeSource) in
  released s = false
  /\ Stroke_Position s = (140, 150)
  /\ (initX s, initY s) = (110, 110).
Proof.
  apply (Stroke_held_tracks_pointer (mouse_down_at (110, 110)) MouseStrokeSource
           [idle_at (120, 130)] (idle_at (140, 150))).
  repeat constructor.
Defined.

(** X5.  The frame that reports the release only sets the released
    flag: the stroke keeps the position of the frame before, whatever
    the pointer position of the release frame, and no later frame
    changes it. *)
Theorem Stroke_release_freezes (e : Engine) (es : list Engine) (s : Stroke) :
  released s = false ->
  source_IsJustReleased e (source s) = true ->
  Stroke_frames (e :: es) s
  = mkStroke (source s) (initX s) (initY s) (currentX s) (currentY s)
             true (draggingObject s).
Proof.
  intros Hr Hj.
  change (Stroke_frames (e :: es) s) with (Stroke_frames es (Stroke_Update e s)).
  assert (Hu : Stroke_Update e s
               = mkStroke (source s) (initX s) (initY s) (currentX s) (currentY s)
                          true (draggingObject s)).
  { unfold Stroke_Update. by rewrite Hr, Hj. }
  rewrite Hu. by apply Stroke_frames_released.
Qed.

Lemma Stroke_release_freezes_witness :
  let s := mkStroke MouseStrokeSource 110 110 140 150 false (SpriteRef (Some 0%nat)) in
  Stroke_frames [mouse_up_at (500, 500); idle_at (7, 7)] s
  = mkStroke MouseStrokeSource 110 110 140 150 true (SpriteRef (Some 0%nat)).
Proof.
  intros s.
  apply (Stroke_release_freezes (mouse_up_at (500, 500)) [idle_at (7, 7)] s);
    reflexivity.
Defined.

(** ** [updateStroke]: holding and error cases *)

(** X6.  While a stroke is held, [updateStroke] moves no sprite: it only
    stores the polled position in that stroke; the sprite objects, the
    slice, the selection and the other strokes are as before. *)
Theorem updateStroke_hold_moves_nothing
    (e : Engine) (key : StrokePtr) (g : Game) (st : Stroke) :
  strokes g !! key = Some st ->
  released st = false ->
  source_IsJustReleased e (source st) = false ->
  Game_updateStroke e key g
  = Some (mkGame (heap g)
                 (<[key := mkStroke (source st) (initX st) (initY st)
                                    (source_Position e (source st)).1
                                    (source_Position e (source st)).2
                                    false (draggingObject st)]> (strokes g))
                 (sprites g) (ChosenSprite g)).
Proof.
  intros Hk Hr Hj.
  rewrite (updateStroke_live e key g st Hk); rewrite Stroke_Update_held; done.
Qed.

Lemma updateStroke_hold_moves_nothing_witness :
  let g := the scene_drag_Q0 in
  exists g', Game_updateStroke (idle_at (200, 210)) 0%nat g = Some g'
    /\ heap g' = heap g /\ sprites g' = sprites g
    /\ ChosenSprite g' = ChosenSprite g.
Proof.
  intros g. eexists. split.
  - apply (updateStroke_hold_moves_nothing (idle_at (200, 210)) 0%nat g
             (mkStroke MouseStrokeSource 110 110 140 150 false (SpriteRef (Some 0%nat))));
      vm_compute; reflexivity.
  - done.
Defined.

Lemma updateStroke_cleared (e : Engine) (key : StrokePtr) (g : Game) (st : Stroke) :
  strokes g !! key = Some st ->
  released st = true -> draggingObject st = nil_iface ->
  Game_updateStroke e key g = None.
Proof.
  intros Hk Hr Hd. unfold Game_updateStroke, Stroke_IsReleased, Stroke_DraggingObject.
  rewrite Hk. cbn. rewrite (Stroke_Update_released_fixed e st Hr), Hr, Hd. done.
Qed.

(** X7.  A committed release clears the stroke's object, so processing
    the same stroke again panics on the type assertion: [update] must
    delete the stroke, as it does. *)
Theorem updateStroke_twice_panics
    (e e' : Engine) (key : StrokePtr) (g : Game) (st : Stroke) (p : SpritePtr) :
  strokes g !! key = Some st ->
  Stroke_IsReleased (Stroke_Update e st) = true ->
  Stroke_DraggingObject st = SpriteRef (Some p) ->
  p ∈ sprites g ->
  exists g', Game_updateStroke e key g = Some g'
    /\ Game_updateStroke e' key g' = None.
Proof.
  intros Hk Hr Hd Hp.
  destruct (index_of_elem p (sprites g) Hp) as (i & Hi & _).
  eexists. split; [by apply (updateStroke_release_sprite e key g st p i)|].
  eapply updateStroke_cleared.
  - cbn. apply lookup_insert_eq.
  - exact Hr.
  - done.
Qed.

Lemma updateStroke_twice_panics_witness :
  let g := the scene_drag_Q0 in
  exists g', Game_updateStroke (mouse_up_at (140, 150)) 0%nat g = Some g'
    /\ Game_updateStroke (idle_at (140, 150)) 0%nat g' = None.
Proof.
  intros g.
  apply (updateStroke_twice_panics (mouse_up_at (140, 150)) (idle_at (140, 150))
           0%nat g
           (mkStroke MouseStrokeSource 110 110 140 150 false (SpriteRef (Some 0%nat)))
           0%nat).
  - vm_compute. reflexivity.
  - reflexivity.
  - reflexivity.
  - change (0%nat ∈ [0%nat; 1%nat]). apply elem_of_cons. by left.
Defined.

(** X8.  Releasing a stroke whose sprite is not in the slice panics:
    the search leaves the index at -1 and the slice expression is out
    of range. *)
Theorem updateStroke_unlisted_sprite_panics
    (e : Engine) (key : StrokePtr) (g : Game) (st : Stroke) (p : SpritePtr) :
  strokes g !! key = Some st ->
  Stroke_IsReleased (Stroke_Update e st) = true ->
  Stroke_DraggingObject st = SpriteRef (Some p) ->
  p ∉ sprites g ->
  Game_updateStroke e key g = None.
Proof. apply updateStroke_release_missing. Qed.

Lemma updateStroke_unlisted_sprite_panics_witness :
  let st := mkStroke MouseStrokeSource 0 0 5 5 false (SpriteRef (Some 0%nat)) in
  let g := mkGame [mkSprite "Q0" box40 0 0 0%float false] {[ 0%nat := st ]} [] None in
  Game_updateStroke (mouse_up_at (5, 5)) 0%nat g = None.
Proof.
  intros st g.
  apply (updateStroke_unlisted_sprite_panics (mouse_up_at (5, 5)) 0%nat g st 0%nat).
  - vm_compute. reflexivity.
  - reflexivity.
  - reflexivity.
  - apply not_elem_of_nil.
Defined.

(** ** Pointer-down *)

Lemma spriteAt_In_at (g : Game) (px py : Z) (p : SpritePtr) :
  Game_spriteAt g px py = Some p -> In_at (heap g) p px py = true.
Proof.
  unfold Game_spriteAt. intros H.
  pose proof (spriteAt_from_spec (heap g) (sprites g) px py (length (sprites g))
                ltac:(lia)) as Hs.
  rewrite H in Hs. by destruct Hs as (n & _ & _ & Hin & _).
Qed.

(** X9.  A pointer-down selects exactly the sprite it hits: afterwards
    [ChosenSprite] is the result of [spriteAt] at the pointer, and a
    sprite of the slice carries the chosen flag if and only if it is that
    sprite; a press on the empty canvas clears the selection. *)
Theorem press_selects_exactly_hit (e : Engine) (src : StrokeSource) (g : Game) :
  NoDup (sprites g) ->
  let hit := Game_spriteAt g (source_Position e src).1 (source_Position e src).2 in
  ChosenSprite (press e src g) = hit
  /\ forall p, p ∈ sprites g -> (is_chosen (press e src g) p <-> hit = Some p).
Proof.
  intros Hnd.
  destruct (press_fields e src g) as (px & py & Hpos & Hsp & Hcs & Hh & Hs).
  cbn zeta in *. rewrite <- Hpos. cbn [fst snd].
  split; [done|]. intros p Hp. unfold is_chosen. rewrite Hh.
  set (h1 := range_with (fun _ => set_chosen false) (sprites g) (heap g)).
  assert (Hh1 : h1 !! p = set_chosen false <$> heap g !! p).
  { unfold h1. by apply range_with_in. }
  destruct (Game_spriteAt g px py) as [q|] eqn:Esp.
  - destruct (decide (q = p)) as [->|Hne].
    + rewrite list_lookup_alter_eq, Hh1. split; [done|]. intros _.
      apply spriteAt_In_at in Esp. unfold In_at in Esp.
      destruct (heap g !! p) as [s|]; [|done]. cbn. eauto.
    + rewrite list_lookup_alter_ne by done. rewrite Hh1. split.
      * intros (s & Hs' & Hc). destruct (heap g !! p); [|done].
        cbn in Hs'. by injection Hs' as <-.
      * intros [= ->]. done.
  - rewrite Hh1. split; [|done].
    intros (s & Hs' & Hc). destruct (heap g !! p); [|done].
    cbn in Hs'. by injection Hs' as <-.
Qed.

Lemma press_selects_exactly_hit_witness :
  let g := the scene_pick_Q0 in
  let g' := press (mouse_down_at (310, 210)) MouseStrokeSource g in
  ChosenSprite g = Some 0%nat
  /\ ChosenSprite g' = Some 1%nat
  /\ forall p, p ∈ sprites g -> (is_chosen g' p <-> Some 1%nat = Some p).
Proof.
  intros g g'. split; [reflexivity|].
  exact (press_selects_exactly_hit (mouse_down_at (310, 210)) MouseStrokeSource g
           scene_pick_Q0_nodup).
Defined.

(** X10.  A pointer-down adds exactly one stroke under a key that was
    free: unreleased, with origin and position at the pointer and
    dragging the sprite hit (or the nil pointer); the strokes already in
    the set and the slice are untouched. *)
Theorem press_adds_one_stroke (e : Engine) (src : StrokeSource) (g : Game) :
  let key := fresh (dom (strokes g)) in
  let pos := source_Position e src in
  strokes g !! key = None
  /\ strokes (press e src g) !! key
     = Some (mkStroke src pos.1 pos.2 pos.1 pos.2 false
                      (SpriteRef (Game_spriteAt g pos.1 pos.2)))
  /\ (forall key', key' <> key -> strokes (press e src g) !! key' = strokes g !! key')
  /\ size (strokes (press e src g)) = S (size (strokes g))
  /\ sprites (press e src g) = sprites g.
Proof.
  intros key pos.
  assert (Hfree : strokes g !! key = None).
  { apply not_elem_of_dom. apply is_fresh. }
  destruct (press_fields e src g) as (px & py & Hpos & Hsp & Hcs & Hh & Hs).
  cbn zeta in *. fold key in Hs. fold pos in Hpos.
  rewrite Hs. split; [done|]. split; [|split; [|split]].
  - rewrite lookup_insert_eq. f_equal. unfold NewStroke. fold pos.
    rewrite <- Hpos. done.
  - intros key' Hne. by rewrite lookup_insert_ne.
  - by apply map_size_insert_None.
  - done.
Qed.

(** ** Start-up and the "add" key *)

Lemma rand_Intn_range (raw n : Z) :
  (rand_Intn raw n = None <-> n <= 0)
  /\ forall v, rand_Intn raw n = Some v -> 0 <= v < n.
Proof.
  unfold rand_Intn. destruct (Z.leb_spec n 0) as [Hn|Hn].
  - split; [done|]. done.
  - split; [split; [done|lia]|]. intros v [= <-]. apply Z.mod_pos_bound. lia.
Qed.

(** X11.  [init] panics exactly when the neutral image is at least as
    wide or as tall as the screen (then [rand.Intn] gets a non-positive
    bound); otherwise it builds two unchosen, uncharged sprites [Q0] and
    [Q1] that lie inside the screen, with no stroke and no selection. *)
Theorem init_panics_iff_image_fills_screen
    (neutralImage : Image) (r0x r0y r1x r1y : Z) :
  (init neutralImage r0x r0y r1x r1y = None
   <-> screenWidth <= img_w neutralImage \/ screenHeight <= img_h neutralImage)
  /\ (forall g, init neutralImage r0x r0y r1x r1y = Some g ->
        exists x0 y0 x1 y1,
          g = mkGame [mkSprite "Q0" neutralImage x0 y0 0%float false;
                      mkSprite "Q1" neutralImage x1 y1 0%float false]
                     ∅ [0%nat; 1%nat] None
          /\ 0 <= x0 < screenWidth - img_w neutralImage
          /\ 0 <= y0 < screenHeight - img_h neutralImage
          /\ 0 <= x1 < screenWidth - img_w neutralImage
          /\ 0 <= y1 < screenHeight - img_h neutralImage).
Proof.
  destruct (screen_sub_exact neutralImage) as [Ew Eh].
  unfold init, Size. rewrite Ew, Eh.
  set (nw := screenWidth - img_w neutralImage).
  set (nh := screenHeight - img_h neutralImage).
  destruct (rand_Intn_range r0x nw) as [Hn0x Hr0x].
  destruct (rand_Intn_range r0y nh) as [Hn0y Hr0y].
  destruct (rand_Intn_range r1x nw) as [Hn1x Hr1x].
  destruct (rand_Intn_range r1y nh) as [Hn1y Hr1y].
  destruct (rand_Intn r0x nw) as [x0|]; cbn.
  2:{ assert (Hle : nw <= 0) by by apply Hn0x.
      split; [|done]. split; [intros _; left|done]. unfold nw in Hle. lia. }
  destruct (rand_Intn r0y nh) as [y0|]; cbn.
  2:{ assert (Hle : nh <= 0) by by apply Hn0y.
      split; [|done]. split; [intros _; right|done]. unfold nh in Hle. lia. }
  destruct (rand_Intn r1x nw) as [x1|]; cbn.
  2:{ exfalso. assert (nw <= 0) by by apply Hn1x.
      specialize (Hr0x x0 eq_refl). lia. }
  destruct (rand_Intn r1y nh) as [y1|]; cbn.
  2:{ exfalso. assert (nh <= 0) by by apply Hn1y.
      specialize (Hr0y y0 eq_refl). lia. }
  split.
  - split; [done|]. intros [H|H].
    + specialize (Hr0x x0 eq_refl). unfold nw in *. lia.
    + specialize (Hr0y y0 eq_refl). unfold nh in *. lia.
  - intros g [= <-]. exists x0, y0, x1, y1. split; [done|]. auto.
Qed.

Lemma init_panics_iff_image_fills_screen_witness :
  init box900 1 2 3 4 = None
  /\ exists x0 y0 x1 y1,
       the scene0
       = mkGame [mkSprite "Q0" box40 x0 y0 0%float false;
                 mkSprite "Q1" box40 x1 y1 0%float false]
                ∅ [0%nat; 1%nat] None
       /\ 0 <= x0 < screenWidth - img_w box40
       /\ 0 <= y0 < screenHeight - img_h box40
       /\ 0 <= x1 < screenWidth - img_w box40
       /\ 0 <= y1 < screenHeight - img_h box40.
Proof.
  split.
  - apply (proj1 (init_panics_iff_image_fills_screen box900 1 2 3 4)).
    left. vm_compute. discriminate.
  - apply (proj2 (init_panics_iff_image_fills_screen box40 100 100 300 200)
             (the scene0)).
    reflexivity.
Defined.

(** X12.  The "add" handler never panics.  It allocates one sprite
    object and appends its pointer at the front-most place of the
    slice: named [Q] followed by the former length of the slice,
    neutral, uncharged, unchosen, at a place of the whole screen
    [0 <= x < screenWidth], [0 <= y < screenHeight] (the image size is
    not subtracted); the objects, strokes and selection already there
    are untouched. *)
Theorem add_sprite_appends_new (neutralImage : Image) (e : Engine) (g : Game) :
  exists px py,
    add_sprite neutralImage e g
    = Some (mkGame
              (heap g ++ [mkSprite ("Q" ++ Itoa (Z.of_nat (length (sprites g))))
                                   neutralImage px py 0%float false])
              (strokes g) (sprites g ++ [length (heap g)]) (ChosenSprite g))
    /\ 0 <= px < screenWidth /\ 0 <= py < screenHeight.
Proof.
  unfold add_sprite.
  destruct (rand_Intn_range (rand1 e) screenWidth) as [Hnx Hrx].
  destruct (rand_Intn_range (rand2 e) screenHeight) as [Hny Hry].
  destruct (rand_Intn (rand1 e) screenWidth) as [px|]; cbn.
  2:{ exfalso. assert (screenWidth <= 0) by by apply Hnx. done. }
  destruct (rand_Intn (rand2 e) screenHeight) as [py|]; cbn.
  2:{ exfalso. assert (screenHeight <= 0) by by apply Hny. done. }
  exists px, py. split; [done|]. split; [by apply Hrx|by apply Hry].
Qed.

(** ** What a frame does to the sprite objects *)

Section HeapRel.

Variable R : Sprite -> Sprite -> Prop.
Hypothesis R_refl : forall a, R a a.
Hypothesis R_trans : forall a b c, R a b -> R b c -> R a c.

Lemma heap_rel_refl h : heap_rel R h h.
Proof. intros p s Hs. eauto. Qed.

Lemma heap_rel_trans h1 h2 h3 :
  heap_rel R h1 h2 -> heap_rel R h2 h3 -> heap_rel R h1 h3.
Proof.
  intros H12 H23 p s Hs. destruct (H12 p s Hs) as (s2 & Hs2 & R12).
  destruct (H23 p s2 Hs2) as (s3 & Hs3 & R23). eauto.
Qed.

Lemma heap_rel_alter f (q : SpritePtr) h :
  (forall a, R a (f a)) -> heap_rel R h (alter f q h).
Proof.
  intros Hf p s Hs. destruct (decide (q = p)) as [->|Hne].
  - exists (f s). by rewrite list_lookup_alter_eq, Hs.
  - exists s. by rewrite list_lookup_alter_ne.
Qed.

Lemma heap_rel_range F l h :
  (forall q a, R a (F q a)) -> heap_rel R h (range_with F l h).
Proof. intros HF p s Hs. by apply range_with_rel. Qed.

Lemma heap_rel_when_chosen f l h :
  (forall a, R a (f a)) -> heap_rel R h (range_sprites (when_chosen f) l h).
Proof.
  intros Hf. rewrite range_sprites_with. apply heap_rel_range.
  intros _ a. unfold when_chosen. by destruct (chosen a).
Qed.

Lemma heap_rel_app h s : heap_rel R h (h ++ [s]).
Proof. intros p a Ha. exists a. split; [|done]. by apply lookup_app_l_Some. Qed.

Lemma press_heap_rel e src g :
  (forall a b, R a (set_chosen b a)) -> heap_rel R (heap g) (heap (press e src g)).
Proof.
  intros Hc.
  destruct (press_fields e src g) as (px & py & _ & _ & _ & -> & _). cbn zeta.
  assert (H1 : heap_rel R (heap g)
                 (range_with (fun _ => set_chosen false) (sprites g) (heap g))).
  { apply heap_rel_range. auto. }
  destruct (Game_spriteAt g px py) as [q|]; [|done].
  eapply heap_rel_trans; [exact H1|]. apply heap_rel_alter. auto.
Qed.

Lemma presses_heap_rel e ids g :
  (ids <> [] -> forall a b, R a (set_chosen b a)) ->
  heap_rel R (heap g)
    (heap (foldl (fun g id => press e (TouchStrokeSource id) g) g ids)).
Proof.
  revert g. induction ids as [|id ids IH]; intros g Hc.
  { apply heap_rel_refl. }
  cbn [foldl]. eapply heap_rel_trans.
  - apply press_heap_rel. by apply Hc.
  - apply IH. intros _. by apply Hc.
Qed.

Lemma on_key_heap_rel e key f g :
  (IsKeyJustPressed e key = true -> heap_rel R (heap g) (heap (f g))) ->
  heap_rel R (heap g) (heap (on_key e key f g)).
Proof.
  intros Hf. unfold on_key. destruct (IsKeyJustPressed e key); [auto|].
  apply heap_rel_refl.
Qed.

Lemma updateStroke_heap_rel e (key : StrokePtr) g g' :
  (forall st, strokes g !! key = Some st -> released (Stroke_Update e st) = true ->
              forall a dx dy, R a (Sprite_MoveBy dx dy a)) ->
  Game_updateStroke e key g = Some g' -> heap_rel R (heap g) (heap g').
Proof.
  unfold Game_updateStroke, Stroke_IsReleased. intros Hm.
  destruct (strokes g !! key) as [st|]; [|done]. cbn.
  destruct (released (Stroke_Update e st)) eqn:Hr; cbn.
  2:{ intros [= <-]. apply heap_rel_refl. }
  destruct (as_Sprite _) as [[s|]|]; cbn; [| |done].
  - destruct (index_of s (sprites g)); [|done]. cbn.
    intros [= <-]. cbn. apply heap_rel_alter. intros a. by apply (Hm st).
  - intros [= <-]. apply heap_rel_refl.
Qed.

Lemma Stroke_Update_twice e st :
  released (Stroke_Update e st) = false ->
  released (Stroke_Update e (Stroke_Update e st)) = false.
Proof.
  intros H.
  assert (Hr : released st = false).
  { destruct (released st) eqn:Hr; [|done].
    rewrite (Stroke_Update_released_fixed e st Hr) in H. congruence. }
  assert (Hj : source_IsJustReleased e (source st) = false).
  { destruct (source_IsJustReleased e (source st)) eqn:Hj; [|done].
    unfold Stroke_Update in H. by rewrite Hr, Hj in H. }
  rewrite (Stroke_Update_held e st Hr Hj) at 1.
  by rewrite Stroke_Update_held.
Qed.

Lemma strokes_iter_survivor e (key : StrokePtr) g g' st' :
  strokes_iter e key g = Some g' -> strokes g' !! key = Some st' ->
  exists st, strokes g !! key = Some st /\ st' = Stroke_Update e st
             /\ released st' = false.
Proof.
  unfold strokes_iter. intros H Hk.
  destruct (strokes g !! key) as [st|] eqn:Hst.
  2:{ unfold Game_updateStroke in H. by rewrite Hst in H. }
  exists st. split; [done|].
  destruct (released (Stroke_Update e st)) eqn:Hr.
  - exfalso. revert H. unfold Game_updateStroke, Stroke_IsReleased.
    rewrite Hst. cbn. rewrite Hr. cbn.
    destruct (as_Sprite _) as [[s|]|]; cbn; [| |done].
    + destruct (index_of s (sprites g)); [|done]. cbn.
      rewrite lookup_insert_eq. cbn. rewrite Hr.
      intros [= <-]. cbn in Hk. by rewrite lookup_delete_eq in Hk.
    + rewrite lookup_insert_eq. cbn. rewrite Hr.
      intros [= <-]. cbn in Hk. by rewrite lookup_delete_eq in Hk.
  - rewrite (updateStroke_live e key g st Hst Hr) in H. cbn in H.
    rewrite lookup_insert_eq in H. cbn in H. unfold Stroke_IsReleased in H.
    rewrite Hr in H. injection H as <-. cbn in Hk.
    rewrite lookup_insert_eq in Hk. injection Hk as <-. done.
Qed.

Lemma strokes_loop_heap_rel e ord g g' :
  (forall key st, strokes g !! key = Some st -> released (Stroke_Update e st) = true ->
                  forall a dx dy, R a (Sprite_MoveBy dx dy a)) ->
  strokes_loop e ord g = Some g' -> heap_rel R (heap g) (heap g').
Proof.
  revert g. induction ord as [|s ord IH]; intros g Hm Hl.
  { injection Hl as <-. apply heap_rel_refl. }
  rewrite strokes_loop_cons in Hl.
  destruct (strokes_iter e s g) as [g1|] eqn:Hit; [|done]. cbn in Hl.
  eapply heap_rel_trans; [|apply (IH g1); [|done]].
  - revert Hit. unfold strokes_iter.
    destruct (Game_updateStroke e s g) as [g0|] eqn:Hu; [|done]. cbn.
    destruct (strokes g0 !! s) as [st0|]; [|done]. cbn. intros [= <-].
    assert (H0 : heap_rel R (heap g) (heap g0)).
    { apply (updateStroke_heap_rel e s g g0); [|done]. intros st. apply Hm. }
    by destruct (Stroke_IsReleased st0).
  - intros key st Hk Hr. destruct (decide (key = s)) as [->|Hne].
    + destruct (strokes_iter_survivor e s g g1 st Hit Hk) as (st0 & _ & -> & Hr0).
      apply Stroke_Update_twice in Hr0. congruence.
    + destruct (strokes_iter_strokes e s g g1 Hit) as [_ Ho].
      rewrite Ho in Hk by done. by apply (Hm key st).
Qed.

Lemma Stroke_Update_released_cases e st :
  released (Stroke_Update e st) = true -> released st = true \/ pointer_up e.
Proof.
  unfold Stroke_Update, pointer_up. destruct (released st) eqn:Hr; [by left|].
  destruct (source_IsJustReleased e (source st)) eqn:Hj.
  - intros _. right. destruct (source st); cbn in Hj; eauto.
  - destruct (source_Position e (source st)). cbn. congruence.
Qed.

Lemma press_strokes_cases e src g (key : StrokePtr) st :
  strokes (press e src g) !! key = Some st ->
  strokes g !! key = Some st \/ released st = false.
Proof.
  destruct (press_fields e src g) as (px & py & _ & _ & _ & _ & ->). cbn zeta.
  destruct (decide (fresh (dom (strokes g)) = key)) as [<-|Hne].
  - rewrite lookup_insert_eq. intros [= <-]. right. cbn. apply NewStroke_fields.
  - rewrite lookup_insert_ne by done. by left.
Qed.

Lemma presses_strokes_cases e ids g (key : StrokePtr) st :
  strokes (foldl (fun g id => press e (TouchStrokeSource id) g) g ids) !! key = Some st ->
  strokes g !! key = Some st \/ released st = false.
Proof.
  revert g. induction ids as [|id ids IH]; intros g; [by left|].
  cbn [foldl]. intros H. apply IH in H as [H|H]; [|by right].
  by apply press_strokes_cases in H.
Qed.

Variables negativeImage neutralImage positiveImage : Image.

Lemma Game_input_strokes_cases e g g1 (key : StrokePtr) st :
  Game_input neutralImage e g = Some g1 ->
  strokes g1 !! key = Some st ->
  strokes g !! key = Some st \/ released st = false.
Proof.
  unfold Game_input.
  set (g0 := if IsMouseButtonJustPressed e then press e MouseStrokeSource g else g).
  set (g2 := foldl _ g0 _).
  assert (H3 : exists g3, (if IsKeyJustPressed e KeyA then add_sprite neutralImage e g2
                           else Some g2) = Some g3 /\ strokes g3 = strokes g2).
  { destruct (IsKeyJustPressed e KeyA); [|eauto].
    destruct (add_sprite_Some neutralImage e g2) as (px & py & ->). eauto. }
  destruct H3 as (g3 & -> & H3). cbn. intros [= <-].
  unfold on_key.
  repeat match goal with |- context [IsKeyJustPressed e ?key] =>
    destruct (IsKeyJustPressed e key) end; cbn; rewrite H3; intros H;
  apply presses_strokes_cases in H as [H|H]; try (by right);
  unfold g0 in H; destruct (IsMouseButtonJustPressed e); try (by left);
  by apply press_strokes_cases in H.
Qed.

Lemma Game_input_heap_rel e g g1 :
  (pointer_down e -> forall a b, R a (set_chosen b a)) ->
  (IsKeyJustPressed e KeyP = true ->
   forall a, R a (set_charge (charge a + charge_step)%float a)) ->
  (IsKeyJustPressed e KeyN = true ->
   forall a, R a (set_charge (charge a - charge_step)%float a)) ->
  (IsKeyJustPressed e KeyUp = true ->
   forall a, R a (set_y (int_sub (y a) (screenHeight / 10)) a)) ->
  (IsKeyJustPressed e KeyDown = true ->
   forall a, R a (set_y (int_add (y a) (screenHeight / 10)) a)) ->
  (IsKeyJustPressed e KeyRight = true ->
   forall a, R a (set_x (int_add (x a) (screenWidth / 10)) a)) ->
  (IsKeyJustPressed e KeyLeft = true ->
   forall a, R a (set_x (int_sub (x a) (screenWidth / 10)) a)) ->
  Game_input neutralImage e g = Some g1 -> heap_rel R (heap g) (heap g1).
Proof.
  intros Hc HP HN HU HD HRt HL. unfold Game_input.
  set (g0 := if IsMouseButtonJustPressed e then press e MouseStrokeSource g else g).
  assert (H0 : heap_rel R (heap g) (heap g0)).
  { unfold g0. destruct (IsMouseButtonJustPressed e) eqn:Hm; [|apply heap_rel_refl].
    apply press_heap_rel. apply Hc. by left. }
  assert (H2 : heap_rel R (heap g0)
                 (heap (foldl (fun g id => press e (TouchStrokeSource id) g) g0
                              (JustPressedTouchIDs e)))).
  { apply presses_heap_rel. intros Hne. apply Hc. by right. }
  set (g2 := foldl _ g0 _) in *.
  assert (H3 : exists g3, (if IsKeyJustPressed e KeyA then add_sprite neutralImage e g2
                           else Some g2) = Some g3
                          /\ heap_rel R (heap g2) (heap g3)).
  { destruct (IsKeyJustPressed e KeyA).
    - destruct (add_sprite_Some neutralImage e g2) as (px & py & ->).
      eexists. split; [done|]. apply heap_rel_app.
    - eexists. split; [done|]. apply heap_rel_refl. }
  destruct H3 as (g3 & -> & H3). cbn. intros [= <-].
  eapply heap_rel_trans; [exact H0|]. eapply heap_rel_trans; [exact H2|].
  eapply heap_rel_trans; [exact H3|].
  eapply heap_rel_trans; [|apply on_key_heap_rel; intros Hk; apply heap_rel_when_chosen; auto].
  eapply heap_rel_trans; [|apply on_key_heap_rel; intros Hk; apply heap_rel_when_chosen; auto].
  eapply heap_rel_trans; [|apply on_key_heap_rel; intros Hk; apply heap_rel_when_chosen; auto].
  eapply heap_rel_trans; [|apply on_key_heap_rel; intros Hk; apply heap_rel_when_chosen; auto].
  eapply heap_rel_trans; [|apply on_key_heap_rel; intros Hk; apply heap_rel_when_chosen; auto].
  apply on_key_heap_rel; intros Hk; apply heap_rel_when_chosen; auto.
Qed.

Lemma draw_heap_rel g g' :
  (forall a i, R a (set_image i a)) ->
  draw negativeImage neutralImage positiveImage g = Some g' ->
  heap_rel R (heap g) (heap g').
Proof.
  intros Hi Hd. apply draw_fields in Hd as (d & -> & _).
  apply heap_rel_range. intros q a. case_decide; [done|].
  unfold charge_image. by repeat case_match.
Qed.

(** The objects after a frame, given what each event of the frame may
    do to an object. *)
Lemma Game_update_heap_rel e g g' :
  (pointer_down e -> forall a b, R a (set_chosen b a)) ->
  (IsKeyJustPressed e KeyP = true ->
   forall a, R a (set_charge (charge a + charge_step)%float a)) ->
  (IsKeyJustPressed e KeyN = true ->
   forall a, R a (set_charge (charge a - charge_step)%float a)) ->
  (IsKeyJustPressed e KeyUp = true ->
   forall a, R a (set_y (int_sub (y a) (screenHeight / 10)) a)) ->
  (IsKeyJustPressed e KeyDown = true ->
   forall a, R a (set_y (int_add (y a) (screenHeight / 10)) a)) ->
  (IsKeyJustPressed e KeyRight = true ->
   forall a, R a (set_x (int_add (x a) (screenWidth / 10)) a)) ->
  (IsKeyJustPressed e KeyLeft = true ->
   forall a, R a (set_x (int_sub (x a) (screenWidth / 10)) a)) ->
  (pointer_up e \/ (exists key st, strokes g !! key = Some st /\ released st = true) ->
   forall a dx dy, R a (Sprite_MoveBy dx dy a)) ->
  (IsDrawingSkipped e = false -> forall a i, R a (set_image i a)) ->
  Game_update negativeImage neutralImage positiveImage e g = Some g' ->
  heap_rel R (heap g) (heap g').
Proof.
  intros Hc HP HN HU HD HRt HL Hm Hi. unfold Game_update.
  destruct (Game_input neutralImage e g) as [g1|] eqn:Hin; [|done]. cbn.
  destruct (strokes_loop e (range_strokes e g1) g1) as [g2|] eqn:Hl; [|done]. cbn.
  intros Hd.
  eapply heap_rel_trans; [by apply (Game_input_heap_rel e g g1)|].
  eapply heap_rel_trans.
  - apply (strokes_loop_heap_rel e (range_strokes e g1) g1 g2); [|done].
    intros key st Hk Hr. apply Hm.
    apply Stroke_Update_released_cases in Hr as [Hr|Hr]; [|by left].
    destruct (Game_input_strokes_cases e g g1 key st Hin Hk) as [H|H].
    + right. eauto.
    + congruence.
  - destruct (IsDrawingSkipped e) eqn:Hs.
    + injection Hd as <-. apply heap_rel_refl.
    + apply draw_heap_rel; auto.
Qed.

End HeapRel.

(** ** What a frame keeps *)

Lemma same_stroke_refl st : same_stroke st st.
Proof. by repeat split. Qed.

Lemma same_stroke_trans st1 st2 st3 :
  same_stroke st1 st2 -> same_stroke st2 st3 -> same_stroke st1 st3.
Proof. unfold same_stroke. intros (?&?&?&?) (?&?&?&?). repeat split; congruence. Qed.

Lemma same_stroke_Update e st : same_stroke st (Stroke_Update e st).
Proof.
  destruct (Stroke_Update_init e st) as [Hx Hy].
  repeat split; [apply Stroke_Update_source|done|done|apply Stroke_Update_dragging].
Qed.

Lemma strokes_loop_survivor e ord g g' (key : StrokePtr) st' :
  strokes_loop e ord g = Some g' -> strokes g' !! key = Some st' ->
  exists st, strokes g !! key = Some st /\ same_stroke st st'.
Proof.
  revert g. induction ord as [|s ord IH]; intros g Hl Hk.
  { injection Hl as <-. exists st'. split; [done|apply same_stroke_refl]. }
  rewrite strokes_loop_cons in Hl.
  destruct (strokes_iter e s g) as [g1|] eqn:Hit; [|done]. cbn in Hl.
  destruct (IH g1 Hl Hk) as (st1 & Hk1 & Hs1).
  destruct (decide (key = s)) as [->|Hne].
  - destruct (strokes_iter_survivor e s g g1 st1 Hit Hk1) as (st & Hst & -> & _).
    exists st. split; [done|].
    eapply same_stroke_trans; [apply same_stroke_Update|done].
  - destruct (strokes_iter_strokes e s g g1 Hit) as [_ Ho].
    rewrite Ho in Hk1 by done. eauto.
Qed.

Lemma press_strokes_old e src g (key : StrokePtr) st :
  strokes g !! key = Some st -> strokes (press e src g) !! key = Some st.
Proof.
  intros Hk.
  destruct (press_fields e src g) as (px & py & _ & _ & _ & _ & ->). cbn zeta.
  rewrite lookup_insert_ne; [done|]. intros Heq.
  assert (Hf : strokes g !! fresh (dom (strokes g)) = None).
  { apply not_elem_of_dom, is_fresh. }
  rewrite Heq in Hf. congruence.
Qed.

Lemma presses_strokes_old e ids g (key : StrokePtr) st :
  strokes g !! key = Some st ->
  strokes (foldl (fun g id => press e (TouchStrokeSource id) g) g ids) !! key = Some st.
Proof.
  revert g. induction ids as [|id ids IH]; intros g Hk; [done|].
  cbn [foldl]. by apply IH, press_strokes_old.
Qed.

Lemma updateStroke_ChosenSprite e (key : StrokePtr) g g' :
  Game_updateStroke e key g = Some g' ->
  ChosenSprite g' = ChosenSprite g /\ length (heap g') = length (heap g).
Proof.
  unfold Game_updateStroke.
  destruct (strokes g !! key) as [st|]; [|done]. cbn.
  destruct (negb _); [by intros [= <-]|].
  destruct (as_Sprite _) as [[s|]|]; cbn; [| |done].
  - destruct (index_of s (sprites g)); [|done]. cbn.
    intros [= <-]. cbn. by rewrite length_alter.
  - by intros [= <-].
Qed.

Lemma strokes_loop_ChosenSprite e ord g g' :
  strokes_loop e ord g = Some g' ->
  ChosenSprite g' = ChosenSprite g /\ length (heap g') = length (heap g).
Proof.
  revert g. induction ord as [|s ord IH]; intros g Hl.
  { by injection Hl as <-. }
  cbn in Hl. destruct (Game_updateStroke e s g) as [g1|] eqn:Hu; [|done].
  cbn in Hl. destruct (strokes g1 !! s) as [st|]; [|done]. cbn in Hl.
  apply IH in Hl as [-> ->].
  destruct (updateStroke_ChosenSprite e s g g1 Hu) as [<- <-].
  by destruct (Stroke_IsReleased st).
Qed.

Lemma same_shape_refl g : same_shape g g.
Proof. by repeat split. Qed.

Lemma same_shape_trans g1 g2 g3 :
  same_shape g1 g2 -> same_shape g2 g3 -> same_shape g1 g3.
Proof. unfold same_shape. intros (?&?&?) (?&?&?). repeat split; congruence. Qed.

Lemma handler_shape F g :
  same_shape g (set_heap (range_sprites F (sprites g) (heap g)) g).
Proof. split; [|done]. cbn. rewrite range_sprites_with. apply range_with_length. Qed.

Lemma on_key_shape e key f g :
  (forall g, same_shape g (f g)) -> same_shape g (on_key e key f g).
Proof.
  intros Hf. unfold on_key. destruct (IsKeyJustPressed e key); [done|].
  apply same_shape_refl.
Qed.

Section FrameKeeps.

Variables negativeImage neutralImage positiveImage : Image.

Local Abbreviation Game_input' := (Game_input neutralImage).
Local Abbreviation Game_update' := (Game_update negativeImage neutralImage positiveImage).
Local Abbreviation reachable' := (reachable negativeImage neutralImage positiveImage).

(** The part of the state that the key handlers leave alone. *)
Lemma Game_input_fields e g g1 :
  Game_input' e g = Some g1 ->
  length (heap g1)
  = (length (heap g) + (if IsKeyJustPressed e KeyA then 1 else 0))%nat
  /\ (forall key st, strokes g !! key = Some st -> strokes g1 !! key = Some st)
  /\ (IsMouseButtonJustPressed e = false -> JustPressedTouchIDs e = [] ->
      ChosenSprite g1 = ChosenSprite g /\ strokes g1 = strokes g).
Proof.
  unfold Game_input.
  set (g0 := if IsMouseButtonJustPressed e then press e MouseStrokeSource g else g).
  set (g2 := foldl (fun g id => press e (TouchStrokeSource id) g) g0
                   (JustPressedTouchIDs e)).
  assert (H0 : length (heap g0) = length (heap g)
               /\ forall key st, strokes g !! key = Some st -> strokes g0 !! key = Some st).
  { unfold g0. destruct (IsMouseButtonJustPressed e); [|done].
    split; [apply press_heap_length|]. intros key st. apply press_strokes_old. }
  destruct H0 as [H0 H0'].
  destruct (presses_sprites e (JustPressedTouchIDs e) g0) as [_ H2]. fold g2 in H2.
  assert (H3 : exists g3, (if IsKeyJustPressed e KeyA then add_sprite neutralImage e g2
                           else Some g2) = Some g3
             /\ length (heap g3)
                = (length (heap g2) + (if IsKeyJustPressed e KeyA then 1 else 0))%nat
             /\ strokes g3 = strokes g2 /\ ChosenSprite g3 = ChosenSprite g2).
  { destruct (IsKeyJustPressed e KeyA).
    - destruct (add_sprite_Some neutralImage e g2) as (px & py & ->).
      eexists. split; [done|]. cbn. rewrite length_app. cbn. done.
    - eexists. split; [done|]. split; [lia|done]. }
  destruct H3 as (g3 & -> & H3 & H3s & H3c). cbn. intros [= <-].
  match goal with |- context [heap ?gf] =>
    assert (Hsh : same_shape g3 gf)
  end.
  { repeat (eapply same_shape_trans; [|apply on_key_shape; intros g'; apply handler_shape]).
    apply same_shape_refl. }
  destruct Hsh as (-> & -> & ->). rewrite H3, H2, H0, H3s, H3c.
  split; [done|]. split.
  - intros key st Hk. by apply presses_strokes_old, H0'.
  - intros Hm Ht. unfold g2, g0. by rewrite Hm, Ht.
Qed.

Lemma Game_update_fields e g g' :
  Game_update' e g = Some g' ->
  length (heap g')
  = (length (heap g) + (if IsKeyJustPressed e KeyA then 1 else 0))%nat
  /\ (forall key st st', strokes g !! key = Some st -> strokes g' !! key = Some st' ->
                         same_stroke st st')
  /\ (IsMouseButtonJustPressed e = false -> JustPressedTouchIDs e = [] ->
      ChosenSprite g' = ChosenSprite g
      /\ forall key, is_Some (strokes g' !! key) -> is_Some (strokes g !! key)).
Proof.
  unfold Game_update.
  destruct (Game_input' e g) as [g1|] eqn:Hin; [|done]. cbn.
  destruct (strokes_loop e (range_strokes e g1) g1) as [g2|] eqn:Hl; [|done]. cbn.
  intros Hd.
  destruct (Game_input_fields e g g1 Hin) as (Hlen & Hold & Hsel).
  destruct (strokes_loop_ChosenSprite e _ g1 g2 Hl) as [Hc2 Hl2].
  assert (Hg' : length (heap g') = length (heap g2) /\ strokes g' = strokes g2
                /\ ChosenSprite g' = ChosenSprite g2).
  { destruct (IsDrawingSkipped e).
    - by injection Hd as <-.
    - apply draw_fields in Hd as (d & -> & -> & _ & ->).
      by rewrite range_with_length. }
  destruct Hg' as (Hl' & Hs' & Hc').
  split; [by rewrite Hl', Hl2|]. split.
  - intros key st st' Hk Hk'. rewrite Hs' in Hk'.
    destruct (strokes_loop_survivor e _ g1 g2 key st' Hl Hk') as (st1 & Hk1 & Hs1).
    rewrite (Hold key st Hk) in Hk1. by injection Hk1 as ->.
  - intros Hm Ht. destruct (Hsel Hm Ht) as [Hc1 Hs1].
    split; [by rewrite Hc', Hc2|].
    intros key [st' Hk']. rewrite Hs' in Hk'.
    destruct (strokes_loop_survivor e _ g1 g2 key st' Hl Hk') as (st1 & Hk1 & _).
    rewrite Hs1 in Hk1. eauto.
Qed.

Lemma reachable_all_listed g :
  reachable' g -> sprites g ≡ₚ seq 0 (length (heap g)).
Proof.
  induction 1 as [r0x r0y r1x r1y g Hi|g g' _ IH (e & He & Hu)].
  - revert Hi. unfold init, Size.
    destruct (rand_Intn r0x _); [|done]. cbn.
    destruct (rand_Intn r0y _); [|done]. cbn.
    destruct (rand_Intn r1x _); [|done]. cbn.
    destruct (rand_Intn r1y _); [|done]. cbn.
    by intros [= <-].
  - destruct (Game_update_fields e g g' Hu) as (Hlen & _).
    rewrite (Game_update_sprites _ _ _ e g g' Hu), Hlen, IH.
    destruct (IsKeyJustPressed e KeyA).
    + by rewrite Nat.add_1_r, seq_S.
    + by rewrite Nat.add_0_r, app_nil_r.
Qed.

End FrameKeeps.

(** X13.  In every reachable state the slice lists every sprite object
    ever allocated exactly once: it is a permutation of the addresses
    of the store. *)
Theorem reachable_slice_lists_every_sprite
    (negativeImage neutralImage positiveImage : Image) (g : Game) :
  reachable negativeImage neutralImage positiveImage g ->
  sprites g ≡ₚ seq 0 (length (heap g)).
Proof. apply reachable_all_listed. Qed.

Lemma reachable_slice_lists_every_sprite_witness :
  let g := the (play [mouse_down_at (110, 110); mouse_up_at (110, 110);
                      key_down KeyA 900 700] scene0) in
  sprites g = [1%nat; 0%nat; 2%nat] /\ sprites g ≡ₚ seq 0 (length (heap g)).
Proof.
  intros g. split; [reflexivity|].
  apply (reachable_slice_lists_every_sprite box40 box40 box40 g).
  apply (reachable_scene [mouse_down_at (110, 110); mouse_up_at (110, 110);
                          key_down KeyA 900 700]).
  - repeat constructor; auto with scene.
  - vm_compute. reflexivity.
Defined.

(** X14.  In every reachable state the object of each stroke of the set
    is a sprite pointer, never the nil interface, and when it is not the
    nil pointer it points to an allocated sprite of the slice: the type
    assertions and the index search of the frame cannot panic. *)
Theorem reachable_strokes_drag_listed_sprites
    (negativeImage neutralImage positiveImage : Image) (g : Game) :
  reachable negativeImage neutralImage positiveImage g ->
  forall key st, strokes g !! key = Some st ->
    exists op, Stroke_DraggingObject st = SpriteRef op
      /\ forall p, op = Some p -> p ∈ sprites g /\ is_Some (heap g !! p).
Proof.
  intros Hr key st Hk. apply reachable_inv in Hr.
  destruct (inv_strokes g Hr key st Hk) as (_ & op & Hop & Hin).
  exists op. split; [done|]. intros p Hp. split; [by apply Hin|].
  apply lookup_lt_is_Some_2, (inv_alloc g Hr), Hin, Hp.
Qed.

Lemma reachable_strokes_drag_listed_sprites_witness :
  let g := the scene_drag_Q0 in
  is_Some (strokes g !! 0%nat)
  /\ forall key st, strokes g !! key = Some st ->
       exists op, Stroke_DraggingObject st = SpriteRef op
         /\ forall p, op = Some p -> p ∈ sprites g /\ is_Some (heap g !! p).
Proof.
  intros g. split; [eexists; vm_compute; reflexivity|].
  apply (reachable_strokes_drag_listed_sprites box40 box40 box40 g).
  apply (reachable_scene [mouse_down_at (110, 110); idle_at (140, 150)]).
  - repeat constructor; auto with scene.
  - vm_compute. reflexivity.
Defined.

(** X15.  A frame never deallocates or renames a sprite: every sprite
    object is still at its address afterwards, under the same name. *)
Theorem frame_keeps_sprites_and_names
    (negativeImage neutralImage positiveImage : Image) (e : Engine) (g g' : Game) :
  Game_update negativeImage neutralImage positiveImage e g = Some g' ->
  forall p s, heap g !! p = Some s ->
    exists s', heap g' !! p = Some s' /\ name s' = name s.
Proof.
  intros Hu.
  refine (Game_update_heap_rel (fun a b => name b = name a) _ _
            negativeImage neutralImage positiveImage e g g'
            _ _ _ _ _ _ _ _ _ Hu); try done.
  - intros a b c. congruence.
  - intros _ a dx dy. by rewrite (Sprite_MoveBy_fields dx dy a).
Qed.

Lemma frame_keeps_sprites_and_names_witness :
  let g := the scene_drag_Q0 in
  let g' := the (Game_update box40 box40 box40 (mouse_up_at (140, 150)) g) in
  sprites g = [0%nat; 1%nat] /\ sprites g' = [1%nat; 0%nat]
  /\ forall p s, heap g !! p = Some s ->
       exists s', heap g' !! p = Some s' /\ name s' = name s.
Proof.
  intros g g'. split; [reflexivity|]. split; [reflexivity|].
  apply (frame_keeps_sprites_and_names box40 box40 box40 (mouse_up_at (140, 150)) g g').
  vm_compute. reflexivity.
Defined.

(** X16.  The charge of a sprite changes only through the two charge
    keys: a frame in which neither went down leaves every charge as it
    was. *)
Theorem frame_without_charge_keys_keeps_charges
    (negativeImage neutralImage positiveImage : Image) (e : Engine) (g g' : Game) :
  IsKeyJustPressed e KeyP = false ->
  IsKeyJustPressed e KeyN = false ->
  Game_update negativeImage neutralImage positiveImage e g = Some g' ->
  forall p s, heap g !! p = Some s ->
    exists s', heap g' !! p = Some s' /\ charge s' = charge s.
Proof.
  intros HP HN Hu.
  refine (Game_update_heap_rel (fun a b => charge b = charge a) _ _
            negativeImage neutralImage positiveImage e g g'
            _ _ _ _ _ _ _ _ _ Hu); try done.
  - intros a b c. congruence.
  - congruence.
  - congruence.
  - intros _ a dx dy. by rewrite (Sprite_MoveBy_fields dx dy a).
Qed.

Lemma frame_without_charge_keys_keeps_charges_witness :
  let g := the (play [key_down KeyP 0 0] scene_drag_Q0) in
  let g' := the (Game_update box40 box40 box40 (mouse_up_at (140, 150)) g) in
  (exists s, heap g !! 0%nat = Some s /\ charge s = charge_step)
  /\ forall p s, heap g !! p = Some s ->
       exists s', heap g' !! p = Some s' /\ charge s' = charge s.
Proof.
  intros g g'. split.
  - eexists. split; [vm_compute; reflexivity|reflexivity].
  - apply (frame_without_charge_keys_keeps_charges box40 box40 box40
             (mouse_up_at (140, 150)) g g'); [reflexivity|reflexivity|].
    vm_compute. reflexivity.
Defined.

(** X17.  The selection changes only on a pointer-down.  A frame with
    no mouse press and no new touch keeps [ChosenSprite] and every
    chosen flag, and adds no stroke to the set. *)
Theorem frame_without_pointer_down_keeps_selection
    (negativeImage neutralImage positiveImage : Image) (e : Engine) (g g' : Game) :
  IsMouseButtonJustPressed e = false ->
  JustPressedTouchIDs e = [] ->
  Game_update negativeImage neutralImage positiveImage e g = Some g' ->
  ChosenSprite g' = ChosenSprite g
  /\ (forall p s, heap g !! p = Some s ->
        exists s', heap g' !! p = Some s' /\ chosen s' = chosen s)
  /\ (forall key, is_Some (strokes g' !! key) -> is_Some (strokes g !! key)).
Proof.
  intros Hm Ht Hu.
  destruct (Game_update_fields _ _ _ e g g' Hu) as (_ & _ & Hsel).
  destruct (Hsel Hm Ht) as [Hc Hs].
  split; [done|]. split; [|done].
  refine (Game_update_heap_rel (fun a b => chosen b = chosen a) _ _
            negativeImage neutralImage positiveImage e g g'
            _ _ _ _ _ _ _ _ _ Hu); try done.
  - intros a b c. congruence.
  - intros [H|H]; congruence.
  - intros _ a dx dy. by rewrite (Sprite_MoveBy_fields dx dy a).
Qed.

Lemma frame_without_pointer_down_keeps_selection_witness :
  let g := the scene_drag_Q0 in
  let g' := the (Game_update box40 box40 box40 (mouse_up_at (140, 150)) g) in
  ChosenSprite g = Some 0%nat
  /\ ChosenSprite g' = ChosenSprite g
  /\ (forall p s, heap g !! p = Some s ->
        exists s', heap g' !! p = Some s' /\ chosen s' = chosen s)
  /\ (forall key, is_Some (strokes g' !! key) -> is_Some (strokes g !! key)).
Proof.
  intros g g'. split; [reflexivity|].
  apply (frame_without_pointer_down_keeps_selection box40 box40 box40
           (mouse_up_at (140, 150)) g g'); [reflexivity|reflexivity|].
  vm_compute. reflexivity.
Defined.

(** X18.  Dragging is a preview: while the strokes of the set are held,
    a frame with no release and no arrow key leaves every sprite at its
    position, wherever the pointers go. *)
Theorem frame_without_release_moves_no_sprite
    (negativeImage neutralImage positiveImage : Image) (e : Engine) (g g' : Game) :
  (forall key st, strokes g !! key = Some st -> released st = false) ->
  IsMouseButtonJustReleased e = false ->
  (forall id, IsTouchJustReleased e id = false) ->
  IsKeyJustPressed e KeyUp = false -> IsKeyJustPressed e KeyDown = false ->
  IsKeyJustPressed e KeyRight = false -> IsKeyJustPressed e KeyLeft = false ->
  Game_update negativeImage neutralImage positiveImage e g = Some g' ->
  forall p s, heap g !! p = Some s ->
    exists s', heap g' !! p = Some s' /\ x s' = x s /\ y s' = y s.
Proof.
  intros Hheld Hmr Htr HU HD HRt HL Hu.
  refine (Game_update_heap_rel (fun a b => x b = x a /\ y b = y a) _ _
            negativeImage neutralImage positiveImage e g g'
            _ _ _ _ _ _ _ _ _ Hu); try done.
  - intros a b c [? ?] [? ?]. split; congruence.
  - congruence.
  - congruence.
  - congruence.
  - congruence.
  - intros [[H|[id H]]|(key & st & Hk & Hr)].
    + congruence.
    + rewrite Htr in H. done.
    + rewrite (Hheld key st Hk) in Hr. done.
Qed.

Lemma frame_without_release_moves_no_sprite_witness :
  let g := the scene_drag_Q0 in
  let g' := the (Game_update box40 box40 box40 (idle_at (700, 500)) g) in
  (exists st, strokes g' !! 0%nat = Some st /\ Stroke_Position st = (700, 500))
  /\ forall p s, heap g !! p = Some s ->
       exists s', heap g' !! p = Some s' /\ x s' = x s /\ y s' = y s.
Proof.
  intros g g'. split; [eexists; split; [vm_compute; reflexivity|reflexivity]|].
  apply (frame_without_release_moves_no_sprite box40 box40 box40
           (idle_at (700, 500)) g g'); try (vm_compute; reflexivity).
  assert (Hs : strokes g
                 = {[ 0%nat := mkStroke MouseStrokeSource 110 110 140 150 false
                                        (SpriteRef (Some 0%nat)) ]})
    by (vm_compute; reflexivity).
  intros key st Hk. rewrite Hs in Hk.
  apply lookup_singleton_Some in Hk as [_ <-]. reflexivity.
Defined.

(** X19.  A stroke that is still in the set after a frame is the stroke
    it was: same device, same origin, same dragged object.  Only its
    position is updated. *)
Theorem frame_keeps_stroke_identity
    (negativeImage neutralImage positiveImage : Image) (e : Engine) (g g' : Game)
    (key : StrokePtr) (st st' : Stroke) :
  Game_update negativeImage neutralImage positiveImage e g = Some g' ->
  strokes g !! key = Some st -> strokes g' !! key = Some st' ->
  source st' = source st /\ initX st' = initX st /\ initY st' = initY st
  /\ draggingObject st' = draggingObject st.
Proof.
  intros Hu Hk Hk'.
  destruct (Game_update_fields _ _ _ e g g' Hu) as (_ & Hs & _).
  exact (Hs key st st' Hk Hk').
Qed.

Lemma frame_keeps_stroke_identity_witness :
  let g := the scene_drag_Q0 in
  let g' := the (Game_update box40 box40 box40 (idle_at (700, 500)) g) in
  let st := mkStroke MouseStrokeSource 110 110 140 150 false (SpriteRef (Some 0%nat)) in
  let st' := mkStroke MouseStrokeSource 110 110 700 500 false (SpriteRef (Some 0%nat)) in
  source st' = source st /\ initX st' = initX st /\ initY st' = initY st
  /\ draggingObject st' = draggingObject st.
Proof.
  intros g g' st st'.
  apply (frame_keeps_stroke_identity box40 box40 box40 (idle_at (700, 500)) g g'
           0%nat st st'); vm_compute; reflexivity.
Defined.

(** ** Arrow keys, drawing, midpoint *)

Lemma int_add_sub_cancel (a b : Z) : is_int a -> int_add (int_sub a b) b = a.
Proof.
  intros Ha. unfold int_add, int_sub, wrap.
  replace ((a - b + 2 ^ 63) mod 2 ^ 64 - 2 ^ 63 + b + 2 ^ 63)
    with ((a - b + 2 ^ 63) mod 2 ^ 64 + b) by lia.
  rewrite Zplus_mod_idemp_l.
  replace (a - b + 2 ^ 63 + b) with (a + 2 ^ 63) by lia.
  unfold is_int, min_int, max_int in Ha. rewrite Z.mod_small by lia. lia.
Qed.

Lemma int_sub_add_cancel (a b : Z) : is_int a -> int_sub (int_add a b) b = a.
Proof.
  intros Ha. unfold int_add, int_sub, wrap.
  replace ((a + b + 2 ^ 63) mod 2 ^ 64 - 2 ^ 63 - b + 2 ^ 63)
    with ((a + b + 2 ^ 63) mod 2 ^ 64 + - b) by lia.
  rewrite Zplus_mod_idemp_l.
  replace (a + b + 2 ^ 63 + - b) with (a + 2 ^ 63) by lia.
  unfold is_int, min_int, max_int in Ha. rewrite Z.mod_small by lia. lia.
Qed.

(** Two loops over the same slice, the second undoing the first on
    chosen sprites. *)
Lemma range_when_chosen_undo f f' l h (p : SpritePtr) s :
  NoDup l -> h !! p = Some s ->
  (forall a, chosen (f a) = chosen a) ->
  (chosen s = true -> f' (f s) = s) ->
  range_sprites (when_chosen f') l (range_sprites (when_chosen f) l h) !! p = Some s.
Proof.
  intros Hnd Hs Hc Hundo.
  destruct (decide (p ∈ l)) as [Hp|Hp].
  - destruct (chosen s) eqn:Hch.
    + rewrite (range_when_chosen_chosen f' l _ p (f s)); [by rewrite Hundo|done|done| |].
      * by apply range_when_chosen_chosen.
      * by rewrite Hc.
    + apply range_when_chosen_unchosen; [|done].
      by apply range_when_chosen_unchosen.
  - by rewrite !range_sprites_with, !range_with_notin.
Qed.

(** X20.  Opposite arrow keys cancel exactly, since no clamp
    intervenes: Up then Down, Down then Up, Right then Left and Left
    then Right each leave every sprite object as it was, even when the
    intermediate coordinate leaves the screen or wraps around. *)
Theorem opposite_nudges_cancel (g : Game) (p : SpritePtr) (s : Sprite) :
  NoDup (sprites g) -> heap g !! p = Some s -> is_int (x s) -> is_int (y s) ->
  heap (nudge_down (nudge_up g)) !! p = Some s
  /\ heap (nudge_up (nudge_down g)) !! p = Some s
  /\ heap (nudge_left (nudge_right g)) !! p = Some s
  /\ heap (nudge_right (nudge_left g)) !! p = Some s.
Proof.
  intros Hnd Hs Hx Hy.
  repeat split; cbn [heap sprites nudge_up nudge_down nudge_left nudge_right set_heap];
    apply range_when_chosen_undo; try done; intros _; destruct s; cbn in *;
    unfold set_x, set_y; cbn; f_equal;
    auto using int_add_sub_cancel, int_sub_add_cancel.
Qed.

Lemma opposite_nudges_cancel_witness :
  let g := the scene_pick_Q0 in
  let q0 := mkSprite "Q0" box40 100 100 0%float true in
  heap (nudge_left g) !! 0%nat = Some (set_x 20 q0)
  /\ heap (nudge_left (nudge_left g)) !! 0%nat = Some (set_x (-60) q0)
  /\ heap (nudge_down (nudge_up g)) !! 0%nat = Some q0
  /\ heap (nudge_up (nudge_down g)) !! 0%nat = Some q0
  /\ heap (nudge_left (nudge_right g)) !! 0%nat = Some q0
  /\ heap (nudge_right (nudge_left g)) !! 0%nat = Some q0.
Proof.
  intros g q0. split; [vm_compute; reflexivity|]. split; [vm_compute; reflexivity|].
  apply (opposite_nudges_cancel g 0%nat q0 scene_pick_Q0_nodup).
  - vm_compute. reflexivity.
  - unfold is_int, min_int, max_int. cbn. lia.
  - unfold is_int, min_int, max_int. cbn. lia.
Defined.

Lemma dragging_sprites_spec (l : list Stroke) (d : gset nat) :
  dragging_sprites l = Some d ->
  forall p, p ∈ d <-> exists st, st ∈ l /\ Stroke_DraggingObject st = SpriteRef (Some p).
Proof.
  revert d. induction l as [|st l IH]; intros d; cbn.
  { intros [= <-] p. split.
    - intros Hp. by apply not_elem_of_empty in Hp.
    - intros (st & Hst & _). by apply elem_of_nil in Hst. }
  destruct (Stroke_DraggingObject st) as [|op] eqn:Hop; [done|]. cbn.
  destruct (dragging_sprites l) as [d'|]; [|done]. cbn.
  intros [= <-] p. specialize (IH d' eq_refl p).
  split.
  - intros Hp.
    assert (Hcase : op = Some p \/ p ∈ d').
    { destruct op as [q|]; [|by right].
      apply elem_of_union in Hp as [Hp|Hp]; [|by right].
      apply elem_of_singleton in Hp as ->. by left. }
    destruct Hcase as [->|Hp'].
    + exists st. split; [by left|done].
    + apply IH in Hp' as (st' & Hst' & Hd'). exists st'. split; [by right|done].
  - intros (st' & Hst' & Hd'). apply elem_of_cons in Hst' as [->|Hst'].
    + rewrite Hop in Hd'. injection Hd' as ->.
      apply elem_of_union. left. by apply elem_of_singleton.
    + assert (p ∈ d') by (apply IH; eauto).
      destruct op; [apply elem_of_union; by right|done].
Qed.

(** X21.  The drawing phase gives every sprite of the slice that no
    stroke drags the image of the sign of its charge (positive,
    negative, else neutral) and changes nothing else of it; a dragged
    sprite, or one outside the slice, is left as it is. *)
Theorem draw_images_follow_charge
    (negativeImage neutralImage positiveImage : Image) (g g' : Game) :
  NoDup (sprites g) ->
  draw negativeImage neutralImage positiveImage g = Some g' ->
  forall p s, heap g !! p = Some s ->
    (p ∈ sprites g -> ~ dragged g p ->
     heap g' !! p
     = Some (set_image (if (0 <? charge s)%float then positiveImage
                        else if (charge s <? 0)%float then negativeImage
                        else neutralImage) s))
    /\ (p ∉ sprites g \/ dragged g p -> heap g' !! p = Some s).
Proof.
  intros Hnd Hd p s Hs.
  assert (Hdrag : exists d, dragging_sprites (map_to_list (strokes g)).*2 = Some d).
  { unfold draw in Hd. destruct (dragging_sprites _) as [d|]; [eauto|done]. }
  destruct Hdrag as [d Hdd].
  assert (Hin : forall q, q ∈ d <-> dragged g q).
  { intros q. rewrite (dragging_sprites_spec _ d Hdd q). unfold dragged. split.
    - intros (st & Hst & Ho).
      apply list_elem_of_fmap in Hst as ([key st'] & -> & Hst).
      apply elem_of_map_to_list in Hst. eauto.
    - intros (key & st & Hk & Ho). exists st. split; [|done].
      apply list_elem_of_fmap. exists (key, st). split; [done|].
      by apply elem_of_map_to_list. }
  assert (Hh : heap g' = range_with (fun q a => if decide (q ∈ d) then a
                  else charge_image negativeImage neutralImage positiveImage a)
                 (sprites g) (heap g)).
  { destruct (draw_fields _ _ _ g g' Hd) as (d2 & Hh2 & _).
    unfold draw in Hd. rewrite Hdd in Hd. cbn in Hd. injection Hd as <-. cbn.
    clear. generalize (heap g). induction (sprites g) as [|q l IH]; intros h; [done|].
    rewrite range_with_cons. cbn. rewrite IH. case_decide; [|done].
    by rewrite list_alter_id. }
  rewrite Hh. split.
  - intros Hp Hnot. rewrite range_with_in, Hs by done. cbn.
    case_decide as Hq; [by apply Hin in Hq|].
    unfold charge_image. by repeat case_match.
  - intros [Hp|Hp].
    + by rewrite range_with_notin.
    + destruct (decide (p ∈ sprites g)) as [Hl|Hl]; [|by rewrite range_with_notin].
      rewrite range_with_in, Hs by done. cbn.
      case_decide as Hq; [done|]. by apply Hin in Hp.
Qed.

Lemma draw_images_follow_charge_witness :
  let g := the (play [key_down KeyP 0 0] scene_pick_Q0) in
  let g' := the (draw box900 box40 box40 g) in
  exists s, heap g !! 0%nat = Some s
    /\ heap g' !! 0%nat = Some (set_image box40 s)
    /\ (0 <? charge s)%float = true.
Proof.
  intros g g'. eexists. split; [vm_compute; reflexivity|]. split; [|reflexivity].
  refine (proj1 (draw_images_follow_charge box900 box40 box40 g g' _ _ 0%nat _ _) _ _).
  - change (NoDup [1%nat; 0%nat]). apply NoDup_cons. split; [|apply NoDup_singleton].
    intros H. apply list_elem_of_singleton in H. discriminate.
  - vm_compute. reflexivity.
  - vm_compute. reflexivity.
  - change (0%nat ∈ [1%nat; 0%nat]). apply elem_of_cons. right. apply elem_of_cons. by left.
  - intros (key & st & Hk & _).
    assert (Hs : strokes g = ∅) by (vm_compute; reflexivity).
    rewrite Hs in Hk. by rewrite lookup_empty in Hk.
Defined.

(** X22.  When the two sums fit an [int], [midPoint] lies between the
    two sprites in each coordinate. *)
Theorem midPoint_between (s1 s2 : Sprite) :
  is_int (x s1 + x s2) -> is_int (y s1 + y s2) ->
  Z.min (x s1) (x s2) <= (midPoint s1 s2).1 <= Z.max (x s1) (x s2)
  /\ Z.min (y s1) (y s2) <= (midPoint s1 s2).2 <= Z.max (y s1) (y s2).
Proof.
  intros Hx Hy. unfold midPoint. cbn [fst snd].
  rewrite (int_add_exact _ _ Hx), (int_add_exact _ _ Hy).
  unfold int_div.
  assert (Hq : forall a b, is_int (a + b) ->
                 Z.min a b <= wrap (Z.quot (a + b) 2) <= Z.max a b).
  { intros a b Hab.
    assert (Hb : Z.min a b <= Z.quot (a + b) 2 <= Z.max a b).
    { pose proof (Z.quot_rem' (a + b) 2) as E.
      pose proof (Z.rem_bound_pos_pos (a + b) 2) as B1.
      pose proof (Z.rem_bound_pos_neg (a + b) 2) as B2.
      destruct (Z.le_gt_cases 0 (a + b)).
      - specialize (B1 ltac:(lia) ltac:(lia)). lia.
      - specialize (B2 ltac:(lia) ltac:(lia)). lia. }
    rewrite wrap_exact; [done|].
    unfold is_int, min_int, max_int in *.
    pose proof (Z.quot_rem' (a + b) 2) as E.
    pose proof (Z.rem_bound_pos_pos (a + b) 2) as B1.
    pose proof (Z.rem_bound_pos_neg (a + b) 2) as B2.
    destruct (Z.le_gt_cases 0 (a + b)).
    - specialize (B1 ltac:(lia) ltac:(lia)). lia.
    - specialize (B2 ltac:(lia) ltac:(lia)). lia. }
  split; by apply Hq.
Qed.

Lemma midPoint_between_witness :
  let s1 := mkSprite "Q0" box40 (-3) 100 0%float false in
  let s2 := mkSprite "Q1" box40 (-2) 201 0%float false in
  midPoint s1 s2 = (-2, 150)
  /\ Z.min (x s1) (x s2) <= (midPoint s1 s2).1 <= Z.max (x s1) (x s2)
  /\ Z.min (y s1) (y s2) <= (midPoint s1 s2).2 <= Z.max (y s1) (y s2).
Proof.
  intros s1 s2. split; [reflexivity|].
  apply (midPoint_between s1 s2); unfold is_int, min_int, max_int; cbn; lia.
Defined.
